(** * The CSS selector builder of [task/08-objects-tasks.js]

    A shallow embedding of the classes [Selector] and [CombinedSelector] and
    of the facade [cssSelectorBuilder], and the properties of the builder
    that the design document states about them.

    JavaScript objects are mutable and shared by reference: a [Selector] is
    returned by each of its methods and handed to [combine], so the objects
    live in a store ([heap]) and are named by their address ([loc]).  The
    object literal [this.parts] and the arrays of a [Selector] are made by
    its constructor and never leave it, so they are kept by value inside
    the object.  A method of [Selector] is a computation over the fields of
    [this] that either returns or throws; what it wrote before a [throw]
    stays written.

    The generators of [task/07-yield-tasks.js] follow: a generator is the
    state of its local variables with a function for [next()]; numbers are
    binary64 floats where the code computes with them. *)

From Stdlib Require Import ZArith String List Lia Floats.
From stdpp Require Import base tactics option list strings sorting.

Local Open Scope string_scope.
Local Open Scope list_scope.
Local Open Scope nat_scope.

(** ** JavaScript primitives used by the source *)

(** [Array.prototype.indexOf]: the first index of [x], [-1] when absent. *)
Fixpoint indexOf (arr : list string) (x : string) : Z :=
  match arr with
  | [] => (-1)%Z
  | y :: rest =>
      if String.eqb y x then 0%Z
      else
        let i := indexOf rest x in
        if (i <? 0)%Z then (-1)%Z else (i + 1)%Z
  end.

(** [Array.prototype.includes] on an array of strings. *)
Fixpoint includes (arr : list string) (x : string) : bool :=
  match arr with
  | [] => false
  | y :: rest => String.eqb y x || includes rest x
  end.

(** [Array.prototype.join]. *)
Definition join (arr : list string) (sep : string) : string :=
  String.concat sep arr.

(** ** Exceptions *)

(** The two [Error]s that [checkOrder] throws, told apart by their message,
    and the [TypeError] of the runtime for a method call on an object that
    has no such method. *)
Inductive Error : Type :=
  | OrderViolation
  | DuplicatePartViolation
  | TypeError.

Definition message (e : Error) : string :=
  match e with
  | OrderViolation =>
      "Selector parts should be arranged in the following order: element, id, class, attribute, pseudo-class, pseudo-element"
  | DuplicatePartViolation =>
      "Element, id and pseudo-element should not occur more then one time inside the selector"
  | TypeError => "is not a function"
  end.

Inductive outcome (A : Type) : Type :=
  | Return (a : A)
  | Throw (e : Error).
Arguments Return {A} a.
Arguments Throw {A} e.

(** ** Computations that read and write a state and may throw *)

Module Comp.
Definition M (St A : Type) : Type := St -> outcome A * St.

Definition ret {St A} (a : A) : M St A := fun s => (Return a, s).

Definition bind {St A B} (m : M St A) (k : A -> M St B) : M St B :=
  fun s =>
    match m s with
    | (Return a, s') => k a s'
    | (Throw e, s') => (Throw e, s')
    end.

Definition throw {St A} (e : Error) : M St A := fun s => (Throw e, s).

Definition gets {St A} (f : St -> A) : M St A := fun s => (Return (f s), s).

Definition modify {St} (f : St -> St) : M St unit := fun s => (Return tt, f s).

(** [try { m } catch (e) { }]: the error is dropped, the writes stay. *)
Definition try_ {St A} (m : M St A) : M St (outcome A) :=
  fun s => let '(r, s') := m s in (Return r, s').
End Comp.

Declare Scope comp_scope.
Delimit Scope comp_scope with comp.
Notation "x <- c1 ;; c2" := (Comp.bind c1 (fun x => c2))
  (at level 100, c1 at next level, right associativity) : comp_scope.
Notation "c1 ;; c2" := (Comp.bind c1 (fun _ => c2))
  (at level 100, right associativity) : comp_scope.
Local Open Scope comp_scope.

(** ** [class Selector] *)

(** The object literal [this.parts]. *)
Module Parts.
Record t : Type := mk {
  element : string;
  id : string;
  class : list string;
  attr : list string;
  pseudoClass : list string;
  pseudoElement : string
}.

Definition set_element (v : string) (p : t) : t :=
  mk v (id p) (class p) (attr p) (pseudoClass p) (pseudoElement p).
Definition set_id (v : string) (p : t) : t :=
  mk (element p) v (class p) (attr p) (pseudoClass p) (pseudoElement p).
Definition push_class (v : string) (p : t) : t :=
  mk (element p) (id p) (class p ++ [v]) (attr p) (pseudoClass p) (pseudoElement p).
Definition push_attr (v : string) (p : t) : t :=
  mk (element p) (id p) (class p) (attr p ++ [v]) (pseudoClass p) (pseudoElement p).
Definition push_pseudoClass (v : string) (p : t) : t :=
  mk (element p) (id p) (class p) (attr p) (pseudoClass p ++ [v]) (pseudoElement p).
Definition set_pseudoElement (v : string) (p : t) : t :=
  mk (element p) (id p) (class p) (attr p) (pseudoClass p) v.
End Parts.

Module Selector.
(** The fields of a [Selector] object. *)
Record t : Type := mk {
  parts : Parts.t;
  order : list string
}.

Definition M : Type -> Type := Comp.M t.

Definition update_parts (f : Parts.t -> Parts.t) : M unit :=
  Comp.modify (fun this => mk (f (parts this)) (order this)).

Definition push_order (part : string) : M unit :=
  Comp.modify (fun this => mk (parts this) (order this ++ [part])).

(** [constructor()] *)
Definition constructor : t :=
  mk (Parts.mk "" "" [] [] [] "") [].

Definition checkOrder (part : string) : M unit :=
  let order_ := ["element"; "id"; "class"; "attr"; "pseudoClass"; "pseudoElement"] in
  let partIndex := indexOf order_ part in
  this_order <- Comp.gets order;;
  let lastIndex :=
    if (0 <? length this_order)%nat
    then indexOf order_ (nth (length this_order - 1) this_order "")
    else (-1)%Z in
  if (partIndex <? lastIndex)%Z then Comp.throw OrderViolation
  else if includes ["element"; "id"; "pseudoElement"] part && includes this_order part
  then Comp.throw DuplicatePartViolation
  else push_order part.

Definition element (value : string) : M unit :=
  checkOrder "element";;
  update_parts (Parts.set_element value).

Definition id (value : string) : M unit :=
  checkOrder "id";;
  update_parts (Parts.set_id ("#" +:+ value)).

Definition class (value : string) : M unit :=
  checkOrder "class";;
  update_parts (Parts.push_class ("." +:+ value)).

Definition attr (value : string) : M unit :=
  checkOrder "attr";;
  update_parts (Parts.push_attr ("[" +:+ value +:+ "]")).

Definition pseudoClass (value : string) : M unit :=
  checkOrder "pseudoClass";;
  update_parts (Parts.push_pseudoClass (":" +:+ value)).

Definition pseudoElement (value : string) : M unit :=
  checkOrder "pseudoElement";;
  update_parts (Parts.set_pseudoElement ("::" +:+ value)).

Definition stringify (this : t) : string :=
  Parts.element (parts this) +:+
  Parts.id (parts this) +:+
  join (Parts.class (parts this)) "" +:+
  join (Parts.attr (parts this)) "" +:+
  join (Parts.pseudoClass (parts this)) "" +:+
  Parts.pseudoElement (parts this).
End Selector.

(** ** The store *)

(** An object is named by its address; [new] puts it behind the objects
    already there, so an object is always younger than the ones it was
    built from. *)
Abbreviation loc := nat (only parsing).

(** ** [class CombinedSelector] *)

Module CombinedSelector.
Record t : Type := mk {
  selector1 : loc;
  combinator : string;
  selector2 : loc
}.

(** [constructor(selector1, combinator, selector2)] *)
Definition constructor (selector1 : loc) (combinator : string) (selector2 : loc) : t :=
  mk selector1 combinator selector2.
End CombinedSelector.

Inductive obj : Type :=
  | OSelector (s : Selector.t)
  | OCombined (c : CombinedSelector.t).

Abbreviation heap := (list obj) (only parsing).

(** [new C(...)]: the object gets the next free address. *)
Definition new (o : obj) : Comp.M heap loc :=
  fun h => (Return (length h), h ++ [o]).

(** [this.m(value)] for one of the six part methods [m] of [Selector]: the
    method runs on the fields of the object at [this], whatever it leaves
    in them is written back, and it returns [this].  An object of another
    class has no such method. *)
Definition invoke (this : loc) (m : Selector.M unit) : Comp.M heap loc :=
  fun h =>
    match h !! this with
    | Some (OSelector s) =>
        let '(r, s') := m s in
        (match r with Return _ => Return this | Throw e => Throw e end,
         <[this := OSelector s']> h)
    | _ => (Throw TypeError, h)
    end.

(** [this.stringify()], dispatched on the class of the object at [this].
    [CombinedSelector.stringify] calls [stringify] on its two operands;
    [fuel] bounds the depth of these calls.  [None]: no such method, or the
    fuel ran out.  The method only reads. *)
Fixpoint stringify (fuel : nat) (h : heap) (this : loc) : option string :=
  match fuel with
  | O => None
  | S fuel' =>
      match h !! this with
      | Some (OSelector s) => Some (Selector.stringify s)
      | Some (OCombined c) =>
          match stringify fuel' h (CombinedSelector.selector1 c),
                stringify fuel' h (CombinedSelector.selector2 c) with
          | Some s1, Some s2 =>
              Some (s1 +:+ " " +:+ CombinedSelector.combinator c +:+ " " +:+ s2)
          | _, _ => None
          end
      | None => None
      end
  end.

(** ** [const cssSelectorBuilder] *)

Module cssSelectorBuilder.
Definition element (value : string) : Comp.M heap loc :=
  this <- new (OSelector Selector.constructor);;
  invoke this (Selector.element value).

Definition id (value : string) : Comp.M heap loc :=
  this <- new (OSelector Selector.constructor);;
  invoke this (Selector.id value).

Definition class (value : string) : Comp.M heap loc :=
  this <- new (OSelector Selector.constructor);;
  invoke this (Selector.class value).

Definition attr (value : string) : Comp.M heap loc :=
  this <- new (OSelector Selector.constructor);;
  invoke this (Selector.attr value).

Definition pseudoClass (value : string) : Comp.M heap loc :=
  this <- new (OSelector Selector.constructor);;
  invoke this (Selector.pseudoClass value).

Definition pseudoElement (value : string) : Comp.M heap loc :=
  this <- new (OSelector Selector.constructor);;
  invoke this (Selector.pseudoElement value).

Definition combine (selector1 : loc) (combinator : string) (selector2 : loc)
  : Comp.M heap loc :=
  new (OCombined (CombinedSelector.constructor selector1 combinator selector2)).
End cssSelectorBuilder.

(** ** Part kinds *)

(** The six kinds of part, in the canonical order. *)
Inductive PartKind : Type :=
  | Element | Id | Class | Attr | PseudoClass | PseudoElement.

#[global] Instance PartKind_eq_dec : EqDecision PartKind.
Proof. solve_decision. Defined.

(** The string by which [checkOrder] knows the kind. *)
Definition name (k : PartKind) : string :=
  match k with
  | Element => "element"
  | Id => "id"
  | Class => "class"
  | Attr => "attr"
  | PseudoClass => "pseudoClass"
  | PseudoElement => "pseudoElement"
  end.

(** The index of the kind in [[element, id, class, attribute, pseudoClass,
    pseudoElement]]. *)
Definition rank (k : PartKind) : Z :=
  match k with
  | Element => 0
  | Id => 1
  | Class => 2
  | Attr => 3
  | PseudoClass => 4
  | PseudoElement => 5
  end.

Definition single_shot (k : PartKind) : bool :=
  match k with
  | Element | Id | PseudoElement => true
  | Class | Attr | PseudoClass => false
  end.

(** The rank of the kind appended last; an empty history ranks before all. *)
Definition lastRank (ks : list PartKind) : Z :=
  match last ks with
  | Some k => rank k
  | None => (-1)%Z
  end.

(** The part method of [Selector] for a kind, and the entry point of the
    builder for it. *)
Definition method (k : PartKind) : string -> Selector.M unit :=
  match k with
  | Element => Selector.element
  | Id => Selector.id
  | Class => Selector.class
  | Attr => Selector.attr
  | PseudoClass => Selector.pseudoClass
  | PseudoElement => Selector.pseudoElement
  end.

Definition start (k : PartKind) : string -> Comp.M heap loc :=
  match k with
  | Element => cssSelectorBuilder.element
  | Id => cssSelectorBuilder.id
  | Class => cssSelectorBuilder.class
  | Attr => cssSelectorBuilder.attr
  | PseudoClass => cssSelectorBuilder.pseudoClass
  | PseudoElement => cssSelectorBuilder.pseudoElement
  end.

(** A chain [this.m1(v1).m2(v2)...]: the calls run in order on the same
    object and the first throw ends the chain. *)
Fixpoint chain (calls : list (PartKind * string)) : Selector.M unit :=
  match calls with
  | [] => Comp.ret tt
  | (k, v) :: rest => method k v;; chain rest
  end.

(** The same calls, each in a [try] block of its own: a throw is recorded
    and the next call is made all the same. *)
Fixpoint attempts (calls : list (PartKind * string)) : Selector.M (list (outcome unit)) :=
  match calls with
  | [] => Comp.ret []
  | (k, v) :: rest =>
      r <- Comp.try_ (method k v);;
      rs <- attempts rest;;
      Comp.ret (r :: rs)
  end.

(** The chain as the program writes it, [x.m1(v1).m2(v2)...] on the object
    at [this]: each call returns the object for the next one. *)
Fixpoint invoke_chain (this : loc) (calls : list (PartKind * string)) : Comp.M heap loc :=
  match calls with
  | [] => Comp.ret this
  | (k, v) :: rest => this' <- invoke this (method k v);; invoke_chain this' rest
  end.

(** ** Definitions used in the statements *)

(** What the part method of a kind writes into [this.parts]. *)
Definition store (k : PartKind) (v : string) : Parts.t -> Parts.t :=
  match k with
  | Element => Parts.set_element v
  | Id => Parts.set_id ("#" +:+ v)
  | Class => Parts.push_class ("." +:+ v)
  | Attr => Parts.push_attr ("[" +:+ v +:+ "]")
  | PseudoClass => Parts.push_pseudoClass (":" +:+ v)
  | PseudoElement => Parts.set_pseudoElement ("::" +:+ v)
  end.

(** The ranks of the kinds never go down from one call to the next. *)
Fixpoint nondecreasing (ks : list PartKind) : bool :=
  match ks with
  | k1 :: rest =>
      match rest with
      | k2 :: _ => (rank k1 <=? rank k2)%Z && nondecreasing rest
      | [] => true
      end
  | [] => true
  end.

(** How often a kind occurs in a sequence of kinds. *)
Definition occurrences (k : PartKind) (ks : list PartKind) : nat :=
  length (filter (λ k', k' = k) ks).

(** [element], [id] and [pseudoElement] occur at most once each. *)
Definition single_shot_once (ks : list PartKind) : bool :=
  forallb (λ k, occurrences k ks <=? 1) [Element; Id; PseudoElement].

(** A sequence of kinds that respects the canonical order and the
    single-shot limits. *)
Definition valid_sequence (ks : list PartKind) : bool :=
  nondecreasing ks && single_shot_once ks.

(** How a part shows in the output. *)
Definition rendered (c : PartKind * string) : string :=
  match c with
  | (Element, v) => v
  | (Id, v) => "#" +:+ v
  | (Class, v) => "." +:+ v
  | (Attr, v) => "[" +:+ v +:+ "]"
  | (PseudoClass, v) => ":" +:+ v
  | (PseudoElement, v) => "::" +:+ v
  end.

(** The calls of one kind, in the order they were made. *)
Definition of_kind (k : PartKind) (calls : list (PartKind * string))
  : list (PartKind * string) :=
  filter (λ c, fst c = k) calls.

(** The part of a kind that is there at most once: rendered if present. *)
Definition single (k : PartKind) (calls : list (PartKind * string)) : string :=
  from_option rendered "" (head (of_kind k calls)).

(** The parts of a repeatable kind, each rendered, in append order. *)
Definition repeated (k : PartKind) (calls : list (PartKind * string)) : list string :=
  map rendered (of_kind k calls).

(** The output that the design document describes for a sequence of calls. *)
Definition render_spec (calls : list (PartKind * string)) : string :=
  single Element calls +:+
  single Id calls +:+
  String.concat "" (repeated Class calls) +:+
  String.concat "" (repeated Attr calls) +:+
  String.concat "" (repeated PseudoClass calls) +:+
  single PseudoElement calls.

(** The fields that a valid sequence of calls leaves in [this.parts]. *)
Definition parts_of (calls : list (PartKind * string)) : Parts.t :=
  Parts.mk (single Element calls) (single Id calls)
    (repeated Class calls) (repeated Attr calls) (repeated PseudoClass calls)
    (single PseudoElement calls).

(** The third scenario of the design document:
    [element('div').id('main').class('x').element('span')]. *)
Definition scenario3 : Comp.M heap loc :=
  s <- cssSelectorBuilder.element "div";;
  s <- invoke s (Selector.id "main");;
  s <- invoke s (Selector.class "x");;
  invoke s (Selector.element "span").

(** The operands of a combined selector are older than it is. *)
Definition wf (h : heap) : Prop :=
  forall l c, h !! l = Some (OCombined c) ->
    CombinedSelector.selector1 c < l /\ CombinedSelector.selector2 c < l.

(** The same, as a check that runs: [l] is the address of the first object
    of [h]. *)
Fixpoint wf_from (l : loc) (h : heap) : bool :=
  match h with
  | [] => true
  | o :: rest =>
      match o with
      | OSelector _ => true
      | OCombined c =>
          (CombinedSelector.selector1 c <? l) && (CombinedSelector.selector2 c <? l)
      end && wf_from (S l) rest
  end.

Definition wf_check (h : heap) : bool := wf_from 0 h.

(** [this.stringify()] with fuel enough for any object of the store. *)
Definition render (h : heap) (this : loc) : option string :=
  stringify (length h) h this.

(** The operations that a program has on the store: an entry point of the
    builder, a part method on an object, and [combine]. *)
Inductive op : Type :=
  | Start (k : PartKind) (value : string)
  | Append (this : loc) (k : PartKind) (value : string)
  | Combine (selector1 : loc) (combinator : string) (selector2 : loc).

Definition step (o : op) : Comp.M heap loc :=
  match o with
  | Start k value => start k value
  | Append this k value => invoke this (method k value)
  | Combine selector1 combinator selector2 =>
      cssSelectorBuilder.combine selector1 combinator selector2
  end.

(** A reference that a program holds is to an object that exists. *)
Definition closed (h : heap) (o : op) : Prop :=
  match o with
  | Start _ _ => True
  | Append this _ _ => this < length h
  | Combine selector1 _ selector2 => selector1 < length h /\ selector2 < length h
  end.

(** The stores that a program can build from the empty one. *)
Inductive reachable : heap -> Prop :=
  | reach_empty : reachable []
  | reach_step (h : heap) (o : op) :
      reachable h -> closed h o -> reachable (snd (step o h)).

(** Three compound selectors and a combined one, for the examples below:
    [div#main], [table#data], [tr] and
    [combine(div#main, '+', table#data)] at the addresses 0 to 3. *)
Definition example_store : heap :=
  snd ((a <- cssSelectorBuilder.element "div";;
        a <- invoke a (Selector.id "main");;
        b <- cssSelectorBuilder.element "table";;
        b <- invoke b (Selector.id "data");;
        _ <- cssSelectorBuilder.element "tr";;
        cssSelectorBuilder.combine a "+" b) []).

(** The calls that returned, given the outcomes of [attempts]. *)
Fixpoint kept (calls : list (PartKind * string)) (rs : list (outcome unit))
  : list (PartKind * string) :=
  match calls, rs with
  | c :: calls', Return _ :: rs' => c :: kept calls' rs'
  | _ :: calls', Throw _ :: rs' => kept calls' rs'
  | _, _ => []
  end.

(** An entry point as the design document describes it: construct an empty
    compound selector, then invoke the part-append operation of the kind
    on it. *)
Definition start_spec (k : PartKind) (value : string) : Comp.M heap loc :=
  this <- new (OSelector Selector.constructor);;
  invoke this (method k value).

(** The objects whose fields [stringify()] of the object at an address
    reads: the object itself and, for a combined selector, those that its
    operands read. *)
Inductive reads (h : heap) : loc -> loc -> Prop :=
  | reads_self (l : loc) : reads h l l
  | reads_selector1 (l x : loc) (c : CombinedSelector.t) :
      h !! l = Some (OCombined c) ->
      reads h (CombinedSelector.selector1 c) x -> reads h l x
  | reads_selector2 (l x : loc) (c : CombinedSelector.t) :
      h !! l = Some (OCombined c) ->
      reads h (CombinedSelector.selector2 c) x -> reads h l x.

(** * [task/07-yield-tasks.js] *)

(** ** Generators *)

(** A generator object is the state of its local variables at the [yield]
    where it is suspended, with a function for [next()]: the value yielded
    and the state at the following [yield], or [None] when the body
    returns ([done]). *)
Module Gen.
(** The values of the first [n] calls of [next()], fewer when the
    generator is done before. *)
Fixpoint first {St A : Type} (n : nat) (next : St -> option (A * St)) (s : St) : list A :=
  match n with
  | O => []
  | S n' =>
      match next s with
      | None => []
      | Some (a, s') => a :: first n' next s'
      end
  end.

(** All the values, for a generator that is done after at most [fuel] of
    them; [None] when it is not. *)
Fixpoint all {St A : Type} (fuel : nat) (next : St -> option (A * St)) (s : St)
  : option (list A) :=
  match next s with
  | None => Some []
  | Some (a, s') =>
      match fuel with
      | O => None
      | S fuel' =>
          match all fuel' next s' with
          | Some l => Some (a :: l)
          | None => None
          end
      end
  end.
End Gen.

(** The iterator of an array: what is left of it. *)
Definition array_next {A : Type} (arr : list A) : option (A * list A) :=
  match arr with
  | [] => None
  | x :: rest => Some (x, rest)
  end.

(** ** [function* getFibonacciSequence] *)

(** The locals [a] and [b], JavaScript numbers, that is binary64 floats. *)
Definition getFibonacciSequence : float * float := (0%float, 1%float).

Definition getFibonacciSequence_next (s : float * float)
  : option (float * (float * float)) :=
  let '(a, b) := s in
  Some (a, (b, (a + b)%float)).

(** The integer that a float is, when it is one. *)
Definition integer_of_float (f : float) : option Z :=
  match Prim2SF f with
  | S754_zero _ => Some 0%Z
  | S754_finite s m e =>
      let sign := if s then (-1)%Z else 1%Z in
      if (0 <=? e)%Z then Some (sign * Z.pos m * 2 ^ e)%Z
      else if (Z.pos m mod 2 ^ (- e) =? 0)%Z
           then Some (sign * (Z.pos m / 2 ^ (- e)))%Z
           else None
  | S754_infinity _ | S754_nan => None
  end.

(** The Fibonacci numbers. *)
Fixpoint fib (n : nat) : Z :=
  match n with
  | O => 0%Z
  | S n' =>
      match n' with
      | O => 1%Z
      | S n'' => (fib n'' + fib n')%Z
      end
  end.

(** The same by the loop of the source on exact integers. *)
Fixpoint fib_pair (n : nat) : Z * Z :=
  match n with
  | O => (0%Z, 1%Z)
  | S n' => let '(a, b) := fib_pair n' in (b, (a + b)%Z)
  end.

(** ** Trees *)

(** A node: an object with, maybe, an array [children]. *)
#[warnings="-register-all"]
Inductive node (A : Type) : Type :=
  | Node (label : A) (children : option (list (node A))).
Arguments Node {A} label children.

(** The children that the loops of the traversals see: none when
    [node.children] is not there. *)
Definition kids {A : Type} (nd : node A) : list (node A) :=
  match nd with
  | Node _ (Some cs) => cs
  | Node _ None => []
  end.

(** The number of nodes of a tree, and of a list of trees. *)
Fixpoint size {A : Type} (nd : node A) : nat :=
  match nd with
  | Node _ None => 1
  | Node _ (Some cs) =>
      S ((fix sizes (l : list (node A)) : nat :=
            match l with
            | [] => 0
            | c :: l' => size c + sizes l'
            end) cs)
  end.

Definition sizes {A : Type} (l : list (node A)) : nat :=
  list_sum (map size l).

(** The nodes of a tree in depth-first order: the node, then the trees
    of its children from the first to the last. *)
Fixpoint preorder {A : Type} (nd : node A) : list (node A) :=
  nd ::
  match nd with
  | Node _ None => []
  | Node _ (Some cs) =>
      (fix preorders (l : list (node A)) : list (node A) :=
         match l with
         | [] => []
         | c :: l' => preorder c ++ preorders l'
         end) cs
  end.

(** The nodes [d] levels below the nodes of [q], from left to right. *)
Fixpoint generation {A : Type} (d : nat) (q : list (node A)) : list (node A) :=
  match d with
  | O => q
  | S d' => generation d' (flat_map kids q)
  end.

(** The first [n] levels, one after the other. *)
Definition generations {A : Type} (n : nat) (q : list (node A)) : list (node A) :=
  flat_map (fun d => generation d q) (seq 0 n).

(** ** [function* depthTraversalTree] *)

(** [for (let i = ...; i >= 0; i--) stack.push(node.children[i])], with
    [i] children still to push. *)
Fixpoint push_down {A : Type} (i : nat) (children stack : list (node A))
  : list (node A) :=
  match i with
  | O => stack
  | S i' =>
      match children !! i' with
      | Some c => push_down i' children (stack ++ [c])
      | None => push_down i' children stack
      end
  end.

(** [const stack = [root]] *)
Definition depthTraversalTree {A : Type} (root : node A) : list (node A) := [root].

(** One turn of the loop; the top of the stack is the end of the array. *)
Definition depthTraversalTree_next {A : Type} (stack : list (node A))
  : option (node A * list (node A)) :=
  match last stack with
  | None => None
  | Some nd =>
      let stack := removelast stack in
      Some (nd,
            match nd with
            | Node _ (Some cs) => push_down (length cs) cs stack
            | Node _ None => stack
            end)
  end.

(** ** [function* breadthTraversalTree] *)

(** [const queue = [root]] *)
Definition breadthTraversalTree {A : Type} (root : node A) : list (node A) := [root].

(** One turn of the loop: [queue.shift()], then the children are pushed
    from the first to the last. *)
Definition breadthTraversalTree_next {A : Type} (queue : list (node A))
  : option (node A * list (node A)) :=
  match queue with
  | [] => None
  | nd :: queue =>
      Some (nd,
            match nd with
            | Node _ (Some cs) => fold_left (fun q child => q ++ [child]) cs queue
            | Node _ None => queue
            end)
  end.

(** ** [function* mergeSortedSequences] *)

Section Merge.
Context {A St1 St2 : Type}.
(** [<=] on the values, and [next()] of the iterators of the two sources. *)
Variable leb : A -> A -> bool.
Variable next1 : St1 -> option (A * St1).
Variable next2 : St2 -> option (A * St2).

(** [val1] and [val2]: the result of the last [next()] of each iterator,
    [None] for [done], else the value with the iterator after it. *)
Definition mergeSortedSequences (source1 : St1) (source2 : St2)
  : option (A * St1) * option (A * St2) :=
  (next1 source1, next2 source2).

(** One turn of the loop. *)
Definition mergeSortedSequences_next (s : option (A * St1) * option (A * St2))
  : option (A * (option (A * St1) * option (A * St2))) :=
  match s with
  | (None, None) => None
  | (None, Some (v2, it2)) => Some (v2, (None, next2 it2))
  | (Some (v1, it1), None) => Some (v1, (next1 it1, None))
  | (Some (v1, it1), Some (v2, it2)) =>
      if leb v1 v2
      then Some (v1, (next1 it1, Some (v2, it2)))
      else Some (v2, (Some (v1, it1), next2 it2))
  end.

(** What a source still has to give: the value in hand and the next [m]. *)
Definition pending {St : Type} (next : St -> option (A * St)) (m : nat)
    (val : option (A * St)) : list A :=
  match val with
  | None => []
  | Some (v, it) => v :: Gen.first m next it
  end.
End Merge.

(** An iterator that never ends: [from], [from + step], ... *)
Definition count_by (step : Z) (from : Z) : option (Z * Z) :=
  Some (from, (from + step)%Z).

(** A tree for the examples:
    [1 -> (2 -> (3, 4 with an empty array of children), 5, 6 -> 7)]. *)
Definition example_tree : node nat :=
  Node 1 (Some [Node 2 (Some [Node 3 None; Node 4 (Some [])]);
                Node 5 None;
                Node 6 (Some [Node 7 None])]).

(** The label of a node. *)
Definition label {A : Type} (nd : node A) : A :=
  match nd with Node a _ => a end.

(** The order on the values that [<=] gives. *)
Definition le_of {A : Type} (leb : A -> A -> bool) (x y : A) : Prop :=
  leb x y = true.

(** [z] is at most the value that a source has in hand. *)
Definition below {A St : Type} (leb : A -> A -> bool) (z : A) (val : option (A * St))
  : Prop :=
  match val with
  | None => True
  | Some (v, _) => le_of leb z v
  end.

(** * Properties *)

(** ** The primitives on the names of the kinds *)

Lemma indexOf_name (k : PartKind) :
  indexOf ["element"; "id"; "class"; "attr"; "pseudoClass"; "pseudoElement"] (name k)
  = rank k.
Proof. destruct k; reflexivity. Qed.

Lemma includes_single_shot (k : PartKind) :
  includes ["element"; "id"; "pseudoElement"] (name k) = single_shot k.
Proof. destruct k; reflexivity. Qed.

Lemma name_eqb (a b : PartKind) : String.eqb (name a) (name b) = bool_decide (a = b).
Proof. destruct a, b; reflexivity. Qed.

Lemma includes_names (ks : list PartKind) (k : PartKind) :
  includes (map name ks) (name k) = bool_decide (k ∈ ks).
Proof.
  induction ks as [|k' ks IH].
  - symmetry. apply bool_decide_eq_false_2, not_elem_of_nil.
  - cbn [map includes]. rewrite name_eqb, IH.
    destruct (decide (k' = k)) as [->|Hne].
    + rewrite bool_decide_eq_true_2 by reflexivity. simpl.
      symmetry. apply bool_decide_eq_true. left.
    + rewrite (bool_decide_eq_false_2 _ Hne). simpl.
      apply bool_decide_ext. rewrite elem_of_cons. intuition congruence.
Qed.

Lemma lastRank_snoc (ks : list PartKind) (k : PartKind) : lastRank (ks ++ [k]) = rank k.
Proof. unfold lastRank. now rewrite last_snoc. Qed.

(** [lastIndex] as [checkOrder] computes it from a history of kinds. *)
Lemma lastIndex_names (ks : list PartKind) :
  (if (0 <? length (map name ks))%nat
   then indexOf ["element"; "id"; "class"; "attr"; "pseudoClass"; "pseudoElement"]
          (nth (length (map name ks) - 1) (map name ks) "")
   else (-1)%Z)
  = lastRank ks.
Proof.
  destruct ks as [|k0 ks0] using rev_ind; [reflexivity|].
  rewrite lastRank_snoc, map_app, length_app. simpl.
  replace (0 <? length (map name ks0) + 1)%nat with true
    by (symmetry; apply Nat.ltb_lt; lia).
  rewrite app_nth2 by lia.
  replace (length (map name ks0) + 1 - 1 - length (map name ks0)) with 0 by lia.
  simpl nth. apply indexOf_name.
Qed.

(** ** [checkOrder] on a history of kinds *)

Lemma checkOrder_kind (p : Parts.t) (ks : list PartKind) (k : PartKind) :
  Selector.checkOrder (name k) (Selector.mk p (map name ks)) =
  if (rank k <? lastRank ks)%Z
  then (Throw OrderViolation, Selector.mk p (map name ks))
  else if single_shot k && bool_decide (k ∈ ks)
  then (Throw DuplicatePartViolation, Selector.mk p (map name ks))
  else (Return tt, Selector.mk p (map name (ks ++ [k]))).
Proof.
  unfold Selector.checkOrder, Comp.bind, Comp.gets.
  cbv beta iota zeta. unfold Selector.order at 1 2 3 4.
  rewrite lastIndex_names, indexOf_name, includes_single_shot, includes_names.
  destruct (rank k <? lastRank ks)%Z; [reflexivity|].
  destruct (single_shot k && bool_decide (k ∈ ks)); [reflexivity|].
  unfold Selector.push_order, Comp.modify. simpl. now rewrite map_app.
Qed.

Lemma method_checkOrder (k : PartKind) (v : string) :
  method k v = (Selector.checkOrder (name k);; Selector.update_parts (store k v)).
Proof. destruct k; reflexivity. Qed.

(** A part method on a history of kinds: the two checks in the order of
    the source, then the two writes. *)
Lemma method_kind (p : Parts.t) (ks : list PartKind) (k : PartKind) (v : string) :
  method k v (Selector.mk p (map name ks)) =
  if (rank k <? lastRank ks)%Z
  then (Throw OrderViolation, Selector.mk p (map name ks))
  else if single_shot k && bool_decide (k ∈ ks)
  then (Throw DuplicatePartViolation, Selector.mk p (map name ks))
  else (Return tt, Selector.mk (store k v p) (map name (ks ++ [k]))).
Proof.
  rewrite method_checkOrder. unfold Comp.bind. rewrite checkOrder_kind.
  destruct (rank k <? lastRank ks)%Z; [reflexivity|].
  destruct (single_shot k && bool_decide (k ∈ ks)); reflexivity.
Qed.

(** ** A throw leaves the fields as they were *)

Lemma checkOrder_throw (part : string) (s s' : Selector.t) (e : Error) :
  Selector.checkOrder part s = (Throw e, s') ->
  s' = s /\ (e = OrderViolation \/ e = DuplicatePartViolation).
Proof.
  unfold Selector.checkOrder, Comp.bind, Comp.gets, Comp.throw,
    Selector.push_order, Comp.modify.
  cbv beta iota zeta.
  destruct (_ <? _)%Z; [intros [= <- <-]; auto|].
  destruct (_ && _); [intros [= <- <-]; auto|].
  congruence.
Qed.

(** The only errors of a part method are the two of [checkOrder], and it
    throws them before it writes. *)
Lemma method_throw (k : PartKind) (v : string) (s s' : Selector.t) (e : Error) :
  method k v s = (Throw e, s') ->
  s' = s /\ (e = OrderViolation \/ e = DuplicatePartViolation).
Proof.
  rewrite method_checkOrder. unfold Comp.bind.
  destruct (Selector.checkOrder (name k) s) as [[[]|e0] s0] eqn:Hc.
  - unfold Selector.update_parts, Comp.modify. congruence.
  - intros [= <- <-]. eapply checkOrder_throw, Hc.
Qed.

(** ** Sequences of part-append calls *)

Lemma nondecreasing_snoc (ks : list PartKind) (k : PartKind) :
  nondecreasing (ks ++ [k]) = nondecreasing ks && (lastRank ks <=? rank k)%Z.
Proof.
  induction ks as [|k1 [|k2 ks] IH].
  - destruct k; reflexivity.
  - simpl. unfold lastRank. simpl. now rewrite andb_true_r.
  - change (nondecreasing ((k1 :: k2 :: ks) ++ [k]))
      with ((rank k1 <=? rank k2)%Z && nondecreasing ((k2 :: ks) ++ [k])).
    rewrite IH.
    change (nondecreasing (k1 :: k2 :: ks))
      with ((rank k1 <=? rank k2)%Z && nondecreasing (k2 :: ks)).
    unfold lastRank. rewrite (last_cons_cons k1 k2 ks). now rewrite andb_assoc.
Qed.

Lemma occurrences_snoc (k k' : PartKind) (ks : list PartKind) :
  occurrences k (ks ++ [k']) = occurrences k ks + (if decide (k' = k) then 1 else 0).
Proof.
  unfold occurrences. rewrite filter_app, length_app. f_equal.
  rewrite filter_cons, filter_nil. now destruct (decide (k' = k)).
Qed.

Lemma occurrences_zero (k : PartKind) (ks : list PartKind) :
  occurrences k ks = 0 <-> k ∉ ks.
Proof.
  unfold occurrences. induction ks as [|k' ks IH].
  - split; [intros _; apply not_elem_of_nil | reflexivity].
  - rewrite filter_cons, not_elem_of_cons.
    destruct (decide (k' = k)) as [->|Hne]; simpl.
    + split; [discriminate | intros [? _]; congruence].
    + rewrite IH. split; [intros ?; split; congruence | tauto].
Qed.

Lemma single_shot_once_spec (ks : list PartKind) :
  single_shot_once ks = true <->
  forall k, single_shot k = true -> occurrences k ks <= 1.
Proof.
  unfold single_shot_once. cbn [forallb].
  rewrite !andb_true_iff, !Nat.leb_le. split.
  - intros (HE & HI & HP & _) [] Hk; (assumption || discriminate Hk).
  - intros H. repeat split; apply H; reflexivity.
Qed.

Lemma valid_sequence_snoc (ks : list PartKind) (k : PartKind) :
  valid_sequence (ks ++ [k]) = true <->
  valid_sequence ks = true /\ (lastRank ks <= rank k)%Z /\
  (single_shot k = true -> k ∉ ks).
Proof.
  unfold valid_sequence.
  rewrite !andb_true_iff, nondecreasing_snoc, andb_true_iff, Z.leb_le,
    !single_shot_once_spec.
  split.
  - intros [[Hnd Hr] Hocc]. repeat split; try assumption.
    + intros k' Hk'. specialize (Hocc k' Hk').
      rewrite occurrences_snoc in Hocc. lia.
    + intros Hk. apply occurrences_zero. specialize (Hocc k Hk).
      rewrite occurrences_snoc in Hocc.
      destruct (decide (k = k)); [lia | congruence].
  - intros ([Hnd Hocc] & Hr & Hk). repeat split; try assumption.
    intros k' Hk'. rewrite occurrences_snoc.
    destruct (decide (k = k')) as [->|Hne].
    + apply Hk, occurrences_zero in Hk'. lia.
    + specialize (Hocc k' Hk'). lia.
Qed.

Lemma valid_sequence_prefix (ks1 ks2 : list PartKind) :
  valid_sequence (ks1 ++ ks2) = true -> valid_sequence ks1 = true.
Proof.
  induction ks2 as [|k ks2 IH] using rev_ind.
  - now rewrite app_nil_r.
  - rewrite app_assoc. intros H. apply valid_sequence_snoc in H. tauto.
Qed.

(** ** Chains *)

Lemma chain_app (calls1 calls2 : list (PartKind * string)) (s : Selector.t) :
  chain (calls1 ++ calls2) s =
  match chain calls1 s with
  | (Return _, s') => chain calls2 s'
  | (Throw e, s') => (Throw e, s')
  end.
Proof.
  revert s. induction calls1 as [|[k v] calls1 IH]; intros s; [reflexivity|].
  change (chain (((k, v) :: calls1) ++ calls2) s)
    with (Comp.bind (method k v) (fun _ => chain (calls1 ++ calls2)) s).
  change (chain ((k, v) :: calls1) s)
    with (Comp.bind (method k v) (fun _ => chain calls1) s).
  unfold Comp.bind.
  destruct (method k v s) as [[[]|e] s1]; [apply IH | reflexivity].
Qed.

Lemma chain_one (k : PartKind) (v : string) (s : Selector.t) :
  chain [(k, v)] s = method k v s.
Proof.
  cbn [chain]. unfold Comp.bind, Comp.ret.
  now destruct (method k v s) as [[[]|e] s1].
Qed.

Lemma of_kind_snoc (k k' : PartKind) (v : string) (calls : list (PartKind * string)) :
  of_kind k (calls ++ [(k', v)]) =
  of_kind k calls ++ (if decide (k' = k) then [(k', v)] else []).
Proof.
  unfold of_kind. now rewrite filter_app.
Qed.

Lemma of_kind_absent (k : PartKind) (calls : list (PartKind * string)) :
  k ∉ map fst calls -> of_kind k calls = [].
Proof.
  unfold of_kind. induction calls as [|[k' v] calls IH]; [reflexivity|].
  cbn [map fst]. rewrite not_elem_of_cons. intros [Hne Hk].
  rewrite filter_cons. cbn [fst].
  destruct (decide (k' = k)); [congruence | auto].
Qed.

Lemma single_snoc_other (k k' : PartKind) (v : string) (calls : list (PartKind * string)) :
  k' <> k -> single k (calls ++ [(k', v)]) = single k calls.
Proof.
  intros Hne. unfold single. rewrite of_kind_snoc.
  destruct (decide (k' = k)); [congruence|]. now rewrite app_nil_r.
Qed.

Lemma single_snoc_first (k : PartKind) (v : string) (calls : list (PartKind * string)) :
  k ∉ map fst calls -> single k (calls ++ [(k, v)]) = rendered (k, v).
Proof.
  intros Hk. unfold single. rewrite of_kind_snoc, (of_kind_absent _ _ Hk).
  destruct (decide (k = k)); [reflexivity | congruence].
Qed.

Lemma repeated_snoc (k k' : PartKind) (v : string) (calls : list (PartKind * string)) :
  repeated k (calls ++ [(k', v)]) =
  repeated k calls ++ (if decide (k' = k) then [rendered (k', v)] else []).
Proof.
  unfold repeated. rewrite of_kind_snoc, map_app.
  now destruct (decide (k' = k)).
Qed.

(** The writes of a call that respects the limits keep [parts_of]. *)
Lemma store_parts_of (k : PartKind) (v : string) (calls : list (PartKind * string)) :
  (single_shot k = true -> k ∉ map fst calls) ->
  store k v (parts_of calls) = parts_of (calls ++ [(k, v)]).
Proof.
  intros Hk. unfold parts_of.
  destruct k; cbn [store single_shot] in *;
    unfold Parts.set_element, Parts.set_id, Parts.push_class, Parts.push_attr,
      Parts.push_pseudoClass, Parts.set_pseudoElement;
    cbn [Parts.element Parts.id Parts.class Parts.attr Parts.pseudoClass
         Parts.pseudoElement];
    rewrite ?repeated_snoc; cbn [decide]; 
    rewrite ?single_snoc_first by auto;
    rewrite ?single_snoc_other by discriminate;
    repeat match goal with
      | |- context [decide (?a = ?b)] => destruct (decide (a = b)); try congruence
      end;
    rewrite ?app_nil_r; reflexivity.
Qed.

(** A chain from a new object whose calls respect the order and the limits
    returns, with these fields. *)
Lemma chain_valid (calls : list (PartKind * string)) :
  valid_sequence (map fst calls) = true ->
  chain calls Selector.constructor =
  (Return tt, Selector.mk (parts_of calls) (map name (map fst calls))).
Proof.
  induction calls as [|[k v] calls IH] using rev_ind; [reflexivity|].
  rewrite map_app. cbn [map fst]. intros Hv.
  apply valid_sequence_snoc in Hv as (Hv & Hr & Hk).
  rewrite chain_app, (IH Hv), chain_one, method_kind.
  replace (rank k <? lastRank (map fst calls))%Z with false
    by (symmetry; apply Z.ltb_ge, Hr).
  replace (single_shot k && bool_decide (k ∈ map fst calls)) with false.
  - now rewrite store_parts_of by exact Hk.
  - symmetry. apply andb_false_iff.
    destruct (single_shot k); [right | now left].
    apply bool_decide_eq_false_2. now apply Hk.
Qed.

(** Any other chain from a new object throws. *)
Lemma chain_invalid (calls : list (PartKind * string)) :
  valid_sequence (map fst calls) = false ->
  exists e s, chain calls Selector.constructor = (Throw e, s).
Proof.
  induction calls as [|[k v] calls IH] using rev_ind; [discriminate|].
  rewrite map_app. cbn [map fst]. intros Hv. rewrite chain_app.
  destruct (valid_sequence (map fst calls)) eqn:Hc.
  - rewrite (chain_valid _ Hc), chain_one, method_kind.
    destruct (rank k <? lastRank (map fst calls))%Z eqn:Hr; [eauto|].
    destruct (single_shot k && bool_decide (k ∈ map fst calls)) eqn:Hd; [eauto|].
    exfalso. apply not_true_iff_false in Hv. apply Hv, valid_sequence_snoc.
    repeat split; [assumption | now apply Z.ltb_ge |].
    intros Hk. rewrite Hk in Hd. now apply bool_decide_eq_false in Hd.
  - destruct (IH eq_refl) as (e & s & ->). eauto.
Qed.

Lemma chain_returns (calls : list (PartKind * string)) (s : Selector.t) :
  chain calls Selector.constructor = (Return tt, s) ->
  valid_sequence (map fst calls) = true /\
  s = Selector.mk (parts_of calls) (map name (map fst calls)).
Proof.
  intros Hc. destruct (valid_sequence (map fst calls)) eqn:Hv.
  - rewrite (chain_valid _ Hv) in Hc. split; congruence.
  - destruct (chain_invalid _ Hv) as (e & s' & He). congruence.
Qed.

Lemma stringify_parts_of (calls : list (PartKind * string)) (o : list string) :
  Selector.stringify (Selector.mk (parts_of calls) o) = render_spec calls.
Proof. reflexivity. Qed.

Example render_spec_example :
  render_spec [(Element, "div"); (Id, "main"); (Class, "container");
               (Class, "draggable"); (Attr, "href"); (PseudoClass, "focus");
               (PseudoElement, "before")]
  = "div#main.container.draggable[href]:focus::before".
Proof. reflexivity. Qed.

(** C2.  A part-append call throws the order error exactly when the rank of
    its kind is strictly below the rank of the kind appended last, an empty
    history ranking before all; a kind of equal or higher rank passes the
    order check, and the call then either throws the duplicate error or
    returns. *)
Theorem C2_order_violation_iff
    (p : Parts.t) (ks : list PartKind) (k : PartKind) (v : string) :
  let this := Selector.mk p (map name ks) in
  (fst (method k v this) = Throw OrderViolation <-> (rank k < lastRank ks)%Z) /\
  ((lastRank ks <= rank k)%Z ->
   method k v this =
   if single_shot k && bool_decide (k ∈ ks)
   then (Throw DuplicatePartViolation, this)
   else (Return tt, Selector.mk (store k v p) (map name (ks ++ [k])))).
Proof.
  cbv zeta. rewrite method_kind.
  destruct (Z.ltb_spec (rank k) (lastRank ks)) as [Hlt|Hge].
  - split; [tauto | lia].
  - split; [|reflexivity].
    destruct (single_shot k && bool_decide (k ∈ ks)); cbn [fst];
      split; (discriminate || lia).
Qed.

Lemma C2_order_violation_iff_witness :
  method Id "y" (Selector.mk (parts_of [(Id, "main")]) (map name [Id])) =
  (Throw DuplicatePartViolation, Selector.mk (parts_of [(Id, "main")]) (map name [Id])).
Proof.
  apply (C2_order_violation_iff (parts_of [(Id, "main")]) [Id] Id "y").
  vm_compute. discriminate.
Defined.

(** In a history whose ranks never go down the last rank is the highest. *)
Lemma nondecreasing_below_last (ks : list PartKind) (k : PartKind) :
  nondecreasing ks = true -> k ∈ ks -> (rank k <= lastRank ks)%Z.
Proof.
  induction ks as [|k0 ks IH] using rev_ind; intros Hnd Hk.
  - now apply elem_of_nil in Hk.
  - rewrite nondecreasing_snoc in Hnd. apply andb_true_iff in Hnd as [Hnd Hr].
    apply Z.leb_le in Hr. rewrite lastRank_snoc.
    apply elem_of_app in Hk as [Hk|Hk].
    + specialize (IH Hnd Hk). lia.
    + apply list_elem_of_singleton in Hk. subst. lia.
Qed.

Lemma higher_rank_appended (ks : list PartKind) (k : PartKind) :
  nondecreasing ks = true ->
  existsb (λ k', (rank k <? rank k')%Z) ks = (rank k <? lastRank ks)%Z.
Proof.
  intros Hnd. apply eq_true_iff_eq.
  rewrite existsb_exists, Z.ltb_lt. split.
  - intros (k' & Hk' & Hlt). apply Z.ltb_lt in Hlt.
    apply list_elem_of_In in Hk'.
    pose proof (nondecreasing_below_last ks k' Hnd Hk'). lia.
  - intros Hlt. unfold lastRank in Hlt.
    destruct (last ks) as [k'|] eqn:Hl.
    + exists k'. split; [|now apply Z.ltb_lt].
      apply list_elem_of_In. apply last_Some in Hl as [ks' ->].
      apply elem_of_app. right. apply list_elem_of_singleton. reflexivity.
    + destruct k; discriminate || lia.
Qed.

(** C3, as stated: the second [element] after an id and a class throws the
    order error, not the duplicate error. *)
Lemma C3_second_element_after_class_is_order_error :
  fst (scenario3 []) = Throw OrderViolation /\
  fst (scenario3 []) <> Throw DuplicatePartViolation.
Proof. split; [reflexivity | discriminate]. Qed.

(** C3, amended.  On a compound selector built by part-append calls that
    all returned, a second append of [element], [id] or [pseudoElement]
    always throws and writes nothing: the duplicate error when no part of a
    higher rank has been appended since, the order error otherwise. *)
Theorem C3_second_single_shot_append_throws
    (calls : list (PartKind * string)) (this : Selector.t)
    (k : PartKind) (v : string) :
  chain calls Selector.constructor = (Return tt, this) ->
  single_shot k = true ->
  k ∈ map fst calls ->
  method k v this =
  (Throw (if existsb (λ k', (rank k <? rank k')%Z) (map fst calls)
          then OrderViolation else DuplicatePartViolation),
   this).
Proof.
  intros Hc Hs Hk. apply chain_returns in Hc as [Hv ->].
  apply andb_true_iff in Hv as [Hnd _].
  rewrite method_kind, (higher_rank_appended _ _ Hnd), Hs.
  rewrite (bool_decide_eq_true_2 _ Hk).
  now destruct (rank k <? lastRank (map fst calls))%Z.
Qed.

Lemma C3_second_single_shot_append_throws_witness :
  method PseudoElement "before"
    (snd (chain [(Element, "a"); (PseudoElement, "after")] Selector.constructor)) =
  (Throw DuplicatePartViolation,
   snd (chain [(Element, "a"); (PseudoElement, "after")] Selector.constructor)).
Proof.
  apply (C3_second_single_shot_append_throws
           [(Element, "a"); (PseudoElement, "after")] _ PseudoElement "before").
  - reflexivity.
  - reflexivity.
  - vm_compute. apply list_elem_of_In. simpl. auto.
Defined.

(** C9.  When a call violates both checks, a single-shot kind already in
    the history and of a rank below the last one, it throws the order
    error: the ranks are compared first. *)
Theorem C9_order_check_first
    (p : Parts.t) (ks : list PartKind) (k : PartKind) (v : string) :
  single_shot k = true ->
  k ∈ ks ->
  (rank k < lastRank ks)%Z ->
  includes ["element"; "id"; "pseudoElement"] (name k)
    && includes (map name ks) (name k) = true /\
  method k v (Selector.mk p (map name ks)) =
  (Throw OrderViolation, Selector.mk p (map name ks)).
Proof.
  intros Hs Hk Hlt. split.
  - rewrite includes_single_shot, includes_names, Hs.
    now apply bool_decide_eq_true_2.
  - rewrite method_kind.
    now replace (rank k <? lastRank ks)%Z with true by (symmetry; now apply Z.ltb_lt).
Qed.

Lemma C9_order_check_first_witness :
  includes ["element"; "id"; "pseudoElement"] (name Id)
    && includes (map name [Element; Id; Class]) (name Id) = true /\
  method Id "y"
    (Selector.mk (parts_of [(Element, "div"); (Id, "main"); (Class, "x")])
       (map name [Element; Id; Class])) =
  (Throw OrderViolation,
   Selector.mk (parts_of [(Element, "div"); (Id, "main"); (Class, "x")])
     (map name [Element; Id; Class])).
Proof.
  apply (C9_order_check_first _ [Element; Id; Class] Id "y").
  - reflexivity.
  - apply list_elem_of_In. simpl. auto.
  - reflexivity.
Defined.

(** ** The store: what [stringify] reads and what the operations write *)

Lemma wf_from_ok (h : heap) (n l : loc) (c : CombinedSelector.t) :
  wf_from n h = true -> h !! l = Some (OCombined c) ->
  CombinedSelector.selector1 c < n + l /\ CombinedSelector.selector2 c < n + l.
Proof.
  revert n l. induction h as [|o h IH]; intros n l; [discriminate 2|].
  cbn [wf_from]. intros [Ho Hh]%andb_true_iff Hl. destruct l as [|l].
  - injection Hl as ->. apply andb_true_iff in Ho as [H1 H2].
    apply Nat.ltb_lt in H1, H2. lia.
  - specialize (IH (S n) l Hh Hl). lia.
Qed.

Lemma wf_check_ok (h : heap) : wf_check h = true -> wf h.
Proof. intros Hc l c Hl. exact (wf_from_ok h 0 l c Hc Hl). Qed.

Lemma stringify_mono (h : heap) (fuel fuel' : nat) (l : loc) (s : string) :
  fuel <= fuel' -> stringify fuel h l = Some s -> stringify fuel' h l = Some s.
Proof.
  revert fuel' l s. induction fuel as [|fuel IH]; intros fuel' l s Hle; [discriminate|].
  destruct fuel' as [|fuel']; [lia|]. cbn [stringify].
  destruct (h !! l) as [[sel|c]|]; try (intros; assumption).
  destruct (stringify fuel h (CombinedSelector.selector1 c)) as [s1|] eqn:H1;
    [|discriminate].
  destruct (stringify fuel h (CombinedSelector.selector2 c)) as [s2|] eqn:H2;
    [|discriminate].
  rewrite (IH fuel' _ s1), (IH fuel' _ s2) by (assumption || lia). auto.
Qed.

(** In a well-formed store every object renders, with fuel above its address. *)
Lemma stringify_total (h : heap) (fuel : nat) (l : loc) :
  wf h -> l < length h -> l < fuel -> is_Some (stringify fuel h l).
Proof.
  intros Hwf. revert l. induction fuel as [|fuel IH]; intros l Hl Hf; [lia|].
  cbn [stringify]. destruct (lookup_lt_is_Some_2 h l Hl) as [o Ho]. rewrite Ho.
  destruct o as [sel|c]; [eauto|].
  destruct (Hwf l c Ho) as [H1 H2].
  destruct (IH (CombinedSelector.selector1 c)) as [s1 ->]; [lia..|].
  destruct (IH (CombinedSelector.selector2 c)) as [s2 ->]; [lia..|].
  eauto.
Qed.

Lemma render_total (h : heap) (l : loc) :
  wf h -> l < length h -> is_Some (render h l).
Proof. intros. now apply stringify_total. Qed.

Lemma render_fuel (h : heap) (fuel : nat) (l : loc) :
  wf h -> l < length h -> l < fuel -> stringify fuel h l = render h l.
Proof.
  intros Hwf Hl Hf. unfold render.
  destruct (stringify_total h (S l) l Hwf Hl) as [s Hs]; [lia|].
  rewrite (stringify_mono h (S l) fuel l s), (stringify_mono h (S l) (length h) l s);
    auto; lia.
Qed.

(** One step of [stringify] on each class of object. *)
Lemma render_selector (h : heap) (l : loc) (s : Selector.t) :
  h !! l = Some (OSelector s) -> render h l = Some (Selector.stringify s).
Proof.
  intros Hl. unfold render. pose proof (lookup_lt_Some _ _ _ Hl).
  destruct (length h); [lia|]. cbn [stringify]. now rewrite Hl.
Qed.

Lemma render_combined (h : heap) (l : loc) (c : CombinedSelector.t) :
  wf h -> h !! l = Some (OCombined c) ->
  render h l =
  match render h (CombinedSelector.selector1 c),
        render h (CombinedSelector.selector2 c) with
  | Some s1, Some s2 =>
      Some (s1 +:+ " " +:+ CombinedSelector.combinator c +:+ " " +:+ s2)
  | _, _ => None
  end.
Proof.
  intros Hwf Hl. pose proof (lookup_lt_Some _ _ _ Hl) as Hlt.
  destruct (Hwf l c Hl) as [H1 H2].
  rewrite <- (render_fuel h (S l) l) by (auto; lia). cbn [stringify]. rewrite Hl.
  now rewrite !render_fuel by (auto; lia).
Qed.

(** An object allocated later is not read. *)
Lemma stringify_app (h h2 : heap) (fuel : nat) (l : loc) (s : string) :
  stringify fuel h l = Some s -> stringify fuel (h ++ h2) l = Some s.
Proof.
  revert l s. induction fuel as [|fuel IH]; intros l s; [discriminate|].
  cbn [stringify]. destruct (h !! l) as [o|] eqn:Ho; [|discriminate].
  rewrite (lookup_app_l_Some _ _ _ _ Ho).
  destruct o as [sel|c]; [auto|].
  destruct (stringify fuel h (CombinedSelector.selector1 c)) as [s1|] eqn:H1;
    [|discriminate].
  destruct (stringify fuel h (CombinedSelector.selector2 c)) as [s2|] eqn:H2;
    [|discriminate].
  now rewrite (IH _ _ H1), (IH _ _ H2).
Qed.

Lemma wf_new_selector (h : heap) (s : Selector.t) : wf h -> wf (h ++ [OSelector s]).
Proof.
  intros Hwf l c Hl. apply lookup_app_Some in Hl as [Hl|[_ Hl]]; [eauto|].
  destruct (l - length h) as [|[|?]]; discriminate.
Qed.

Lemma wf_new_combined (h : heap) (c : CombinedSelector.t) :
  wf h ->
  CombinedSelector.selector1 c < length h ->
  CombinedSelector.selector2 c < length h ->
  wf (h ++ [OCombined c]).
Proof.
  intros Hwf H1 H2 l c' Hl. apply lookup_app_Some in Hl as [Hl|[Hge Hl]]; [eauto|].
  destruct (l - length h) as [|[|?]] eqn:Hd; try discriminate.
  injection Hl as <-. lia.
Qed.

Lemma wf_insert_selector (h : heap) (l : loc) (s : Selector.t) :
  wf h -> wf (<[l := OSelector s]> h).
Proof.
  intros Hwf l' c Hl. destruct (decide (l = l')) as [<-|Hne].
  - destruct (decide (l < length h)).
    + rewrite list_lookup_insert_eq in Hl by assumption. discriminate.
    + rewrite list_insert_ge in Hl by lia. eauto.
  - rewrite list_lookup_insert_ne in Hl by assumption. eauto.
Qed.

Lemma render_new (h : heap) (o : obj) (l : loc) :
  wf h -> l < length h -> render (h ++ [o]) l = render h l.
Proof.
  intros Hwf Hl. destruct (render_total h l Hwf Hl) as [s Hs]. rewrite Hs.
  unfold render. apply stringify_app with (h2 := [o]) in Hs.
  apply (stringify_mono _ (length h)); [rewrite length_app; lia | assumption].
Qed.

Lemma append_assoc (s1 s2 s3 : string) : (s1 +:+ s2) +:+ s3 = s1 +:+ s2 +:+ s3.
Proof.
  induction s1 as [|a s1 IH]; [reflexivity|].
  change (String a ((s1 +:+ s2) +:+ s3) = String a (s1 +:+ s2 +:+ s3)).
  now rewrite IH.
Qed.

(** ** The operations of the builder as steps on the store *)

(** What a call on the object at [this] does to the store. *)
Lemma invoke_selector (h : heap) (this : loc) (s : Selector.t) (m : Selector.M unit) :
  h !! this = Some (OSelector s) ->
  invoke this m h =
  (match fst (m s) with Return _ => Return this | Throw e => Throw e end,
   <[this := OSelector (snd (m s))]> h).
Proof. intros Hs. unfold invoke. rewrite Hs. now destruct (m s). Qed.

Lemma invoke_other (h : heap) (this : loc) (m : Selector.M unit) :
  (forall s, h !! this <> Some (OSelector s)) ->
  invoke this m h = (Throw TypeError, h).
Proof.
  intros Hs. unfold invoke. destruct (h !! this) as [[s|c]|]; try reflexivity.
  now destruct (Hs s).
Qed.

(** An entry point of the builder never throws: it allocates one object,
    whose fields are those of a new [Selector] after the one call. *)
Lemma start_new (k : PartKind) (v : string) (h : heap) :
  start k v h =
  (Return (length h),
   h ++ [OSelector (Selector.mk (store k v (Selector.parts Selector.constructor))
                      [name k])]).
Proof.
  assert (forall m s', m Selector.constructor = (Return tt, s') ->
            (Comp.bind (new (OSelector Selector.constructor)) (fun this => invoke this m)) h
            = (Return (length h), h ++ [OSelector s'])) as Hstart.
  { intros m s' Hm. unfold Comp.bind, new.
    rewrite (invoke_selector _ _ Selector.constructor)
      by now apply list_lookup_middle.
    rewrite Hm. cbn [fst snd]. f_equal.
    rewrite insert_app_r_alt by lia. now rewrite Nat.sub_diag. }
  destruct k; apply Hstart; reflexivity.
Qed.

Lemma combine_new (a b : loc) (c : string) (h : heap) :
  cssSelectorBuilder.combine a c b h =
  (Return (length h), h ++ [OCombined (CombinedSelector.mk a c b)]).
Proof. reflexivity. Qed.

Lemma step_length (o : op) (h : heap) : length h <= length (snd (step o h)).
Proof.
  destruct o as [k v|this k v|a c b]; cbn [step].
  - rewrite start_new. cbn [snd]. rewrite length_app. lia.
  - unfold invoke. destruct (h !! this) as [[s|]|]; cbn [snd]; try lia.
    destruct (method k v s). cbn [snd]. rewrite length_insert. lia.
  - rewrite combine_new. cbn [snd]. rewrite length_app. lia.
Qed.

Lemma wf_step (o : op) (h : heap) : wf h -> closed h o -> wf (snd (step o h)).
Proof.
  intros Hwf Hc. destruct o as [k v|this k v|a c b]; cbn [step].
  - rewrite start_new. now apply wf_new_selector.
  - unfold invoke. destruct (h !! this) as [[s|]|]; cbn [snd]; try assumption.
    destruct (method k v s). cbn [snd]. now apply wf_insert_selector.
  - rewrite combine_new. destruct Hc. now apply wf_new_combined.
Qed.

Lemma wf_reachable (h : heap) : reachable h -> wf h.
Proof.
  induction 1 as [|h o _ IH Hc].
  - intros l c Hl. discriminate.
  - now apply wf_step.
Qed.

(** No operation writes to a combined selector. *)
Lemma step_keeps_combined (o : op) (h : heap) (l : loc) (c : CombinedSelector.t) :
  h !! l = Some (OCombined c) -> snd (step o h) !! l = Some (OCombined c).
Proof.
  intros Hl. destruct o as [k v|this k v|a cb b]; cbn [step].
  - rewrite start_new. now apply lookup_app_l_Some.
  - unfold invoke. destruct (h !! this) as [[s|]|] eqn:Ht; cbn [snd]; try assumption.
    destruct (method k v s). cbn [snd].
    rewrite list_lookup_insert_ne; [assumption | congruence].
  - rewrite combine_new. now apply lookup_app_l_Some.
Qed.

(** ** [combine] *)

Lemma combine_render (h : heap) (a b : loc) (c : string) :
  wf h -> a < length h -> b < length h ->
  exists sa sb,
    render h a = Some sa /\ render h b = Some sb /\
    let h' := snd (cssSelectorBuilder.combine a c b h) in
    render h' a = Some sa /\ render h' b = Some sb /\
    render h' (length h) = Some (sa +:+ " " +:+ c +:+ " " +:+ sb).
Proof.
  intros Hwf Ha Hb.
  destruct (render_total h a Hwf Ha) as [sa Hsa].
  destruct (render_total h b Hwf Hb) as [sb Hsb].
  exists sa, sb. rewrite combine_new. cbn [snd].
  assert (wf (h ++ [OCombined (CombinedSelector.mk a c b)])) as Hwf'
    by now apply wf_new_combined.
  rewrite (render_combined _ (length h) (CombinedSelector.mk a c b) Hwf')
    by now apply list_lookup_middle.
  cbn [CombinedSelector.selector1 CombinedSelector.selector2
       CombinedSelector.combinator].
  rewrite !render_new by assumption. rewrite Hsa, Hsb. auto.
Qed.

Lemma example_store_wf : wf example_store.
Proof. now apply wf_check_ok. Qed.

(** C4.  For selectors [a] and [b] of either class and any combinator
    string, [combine(a, op, b).stringify()] is [a.stringify()], a space,
    [op], a space, [b.stringify()]; and combined selectors nest:
    [combine(combine(a, '+', b), '~', c).stringify()] is
    [a.stringify() + " + " + b.stringify() + " ~ " + c.stringify()]. *)
Theorem C4_combine_stringify (h : heap) (a b c : loc) (op : string) :
  wf h -> a < length h -> b < length h -> c < length h ->
  (exists ab h' sa sb,
     cssSelectorBuilder.combine a op b h = (Return ab, h') /\
     render h' a = Some sa /\ render h' b = Some sb /\
     render h' ab = Some (sa +:+ " " +:+ op +:+ " " +:+ sb)) /\
  (exists abc h' sa sb sc,
     (ab <- cssSelectorBuilder.combine a "+" b;;
      cssSelectorBuilder.combine ab "~" c) h = (Return abc, h') /\
     render h' a = Some sa /\ render h' b = Some sb /\ render h' c = Some sc /\
     render h' abc = Some (sa +:+ " + " +:+ sb +:+ " ~ " +:+ sc)).
Proof.
  intros Hwf Ha Hb Hc. split.
  - destruct (combine_render h a b op Hwf Ha Hb) as (sa & sb & _ & _ & Ha' & Hb' & Hab).
    exists (length h), (snd (cssSelectorBuilder.combine a op b h)), sa, sb. auto.
  - destruct (combine_render h a b "+" Hwf Ha Hb) as (sa & sb & Hsa & Hsb & Ha' & Hb' & Hab).
    rewrite combine_new in Ha', Hb', Hab. cbn [snd] in Ha', Hb', Hab.
    set (h1 := h ++ [OCombined (CombinedSelector.mk a "+" b)]) in *.
    assert (wf h1) as Hwf1 by now apply wf_new_combined.
    assert (length h1 = S (length h)) as Hlen
      by (unfold h1; rewrite length_app; cbn; lia).
    destruct (combine_render h1 (length h) c "~" Hwf1) as (sab & sc & Hsab & Hsc & _ & Hc' & Habc);
      [lia..|].
    rewrite Hab in Hsab. injection Hsab as <-.
    exists (length h1), (snd (cssSelectorBuilder.combine (length h) "~" c h1)), sa, sb, sc.
    rewrite combine_new in *. cbn [snd] in *.
    repeat split; try assumption.
    + rewrite render_new by (auto; lia). assumption.
    + rewrite render_new by (auto; lia). assumption.
    + rewrite Habc. f_equal. now rewrite !append_assoc.
Qed.

Lemma C4_combine_stringify_witness :
  (exists ab h' sa sb,
     cssSelectorBuilder.combine 0 ">" 3 example_store = (Return ab, h') /\
     render h' 0 = Some sa /\ render h' 3 = Some sb /\
     render h' ab = Some (sa +:+ " " +:+ ">" +:+ " " +:+ sb)) /\
  (exists abc h' sa sb sc,
     (ab <- cssSelectorBuilder.combine 0 "+" 3;;
      cssSelectorBuilder.combine ab "~" 2) example_store = (Return abc, h') /\
     render h' 0 = Some sa /\ render h' 3 = Some sb /\ render h' 2 = Some sc /\
     render h' abc = Some (sa +:+ " + " +:+ sb +:+ " ~ " +:+ sc)).
Proof.
  apply (C4_combine_stringify example_store 0 3 2 ">").
  - apply wf_check_ok. reflexivity.
  - vm_compute. lia.
  - vm_compute. lia.
  - vm_compute. lia.
Defined.

(** C6.  [combine] does not look at the combinator: for every string, also
    one that is no CSS combinator, it returns, the new object holds the
    string as given, and [stringify()] puts it as it is between the two
    rendered operands. *)
Theorem C6_combine_any_combinator (h : heap) (a b : loc) (op : string) :
  wf h -> a < length h -> b < length h ->
  exists this h' sa sb,
    cssSelectorBuilder.combine a op b h = (Return this, h') /\
    h' !! this = Some (OCombined (CombinedSelector.mk a op b)) /\
    render h a = Some sa /\ render h b = Some sb /\
    render h' this = Some (sa +:+ " " +:+ op +:+ " " +:+ sb).
Proof.
  intros Hwf Ha Hb.
  destruct (combine_render h a b op Hwf Ha Hb) as (sa & sb & Hsa & Hsb & _ & _ & Hab).
  exists (length h), (h ++ [OCombined (CombinedSelector.mk a op b)]), sa, sb.
  repeat split; try assumption. now apply list_lookup_middle.
Qed.

Lemma C6_combine_any_combinator_witness :
  exists this h' sa sb,
    cssSelectorBuilder.combine 3 "no combinator" 2 example_store = (Return this, h') /\
    h' !! this = Some (OCombined (CombinedSelector.mk 3 "no combinator" 2)) /\
    render example_store 3 = Some sa /\ render example_store 2 = Some sb /\
    render h' this = Some (sa +:+ " " +:+ "no combinator" +:+ " " +:+ sb).
Proof.
  apply (C6_combine_any_combinator example_store 3 2 "no combinator").
  - apply wf_check_ok. reflexivity.
  - vm_compute. lia.
  - vm_compute. lia.
Defined.

Example combine_any_combinator_example :
  render (snd (cssSelectorBuilder.combine 3 "no combinator" 2 example_store)) 4
  = Some "div#main + table#data no combinator tr".
Proof. reflexivity. Qed.

(** C5.  Both errors are thrown by the part-append call itself, before it
    writes: when the call throws, the store is as it was, so every object
    renders as before; and rendering a compound selector never throws, it
    returns the string of the fields as they are. *)
Theorem C5_throw_leaves_selector_unchanged
    (h h' : heap) (this : loc) (s : Selector.t) (k : PartKind) (v : string) (e : Error) :
  h !! this = Some (OSelector s) ->
  invoke this (method k v) h = (Throw e, h') ->
  (e = OrderViolation \/ e = DuplicatePartViolation) /\
  h' = h /\
  h' !! this = Some (OSelector s) /\
  render h' this = Some (Selector.stringify s) /\
  render h this = Some (Selector.stringify s).
Proof.
  intros Hs Hi. rewrite (invoke_selector _ _ _ _ Hs) in Hi.
  destruct (method k v s) as [[[]|e0] s0] eqn:Hm; cbn [fst snd] in Hi; [discriminate|].
  injection Hi as -> <-. apply method_throw in Hm as [-> He].
  rewrite (list_insert_id _ _ _ Hs).
  repeat split; auto using render_selector.
Qed.

Lemma C5_throw_leaves_selector_unchanged_witness :
  (OrderViolation = OrderViolation \/ OrderViolation = DuplicatePartViolation) /\
  example_store = example_store /\
  example_store !! 0 =
    Some (OSelector (Selector.mk (parts_of [(Element, "div"); (Id, "main")])
                       ["element"; "id"])) /\
  render example_store 0 =
    Some (Selector.stringify (Selector.mk (parts_of [(Element, "div"); (Id, "main")])
                                ["element"; "id"])) /\
  render example_store 0 =
    Some (Selector.stringify (Selector.mk (parts_of [(Element, "div"); (Id, "main")])
                                ["element"; "id"])).
Proof.
  apply (C5_throw_leaves_selector_unchanged example_store example_store 0
           (Selector.mk (parts_of [(Element, "div"); (Id, "main")]) ["element"; "id"])
           Element "span" OrderViolation).
  - reflexivity.
  - reflexivity.
Defined.

Lemma attempts_kept (calls : list (PartKind * string)) (s : Selector.t) :
  exists rs s',
    attempts calls s = (Return rs, s') /\
    length rs = length calls /\
    chain (kept calls rs) s = (Return tt, s').
Proof.
  revert s. induction calls as [|[k v] calls IH]; intros s.
  - exists [], s. repeat split.
  - change (attempts ((k, v) :: calls))
      with (Comp.bind (Comp.try_ (method k v))
              (fun r => Comp.bind (attempts calls) (fun rs => Comp.ret (r :: rs)))).
    unfold Comp.bind at 1. unfold Comp.try_.
    destruct (method k v s) as [[[]|e] s1] eqn:Hm.
    + destruct (IH s1) as (rs & s' & Ha & Hl & Hc).
      exists (Return tt :: rs), s'. unfold Comp.bind, Comp.ret. rewrite Ha.
      repeat split; [cbn; lia|].
      change (kept ((k, v) :: calls) (Return tt :: rs)) with ((k, v) :: kept calls rs).
      change (chain ((k, v) :: kept calls rs) s)
        with (Comp.bind (method k v) (fun _ => chain (kept calls rs)) s).
      unfold Comp.bind. now rewrite Hm.
    + apply method_throw in Hm as [-> _].
      destruct (IH s) as (rs & s' & Ha & Hl & Hc).
      exists (Throw e :: rs), s'. unfold Comp.bind, Comp.ret. rewrite Ha.
      repeat split; [cbn; lia | exact Hc].
Qed.

(** C10.  A part-append call that throws does not spoil the selector: the
    calls made after it do what they would have done without it, those
    that are valid for the fields as they were before it return, and the
    fields in the end, and so [stringify()], are those that the calls that
    returned leave when chained alone. *)
Theorem C10_failed_append_leaves_no_trace
    (calls : list (PartKind * string)) (this failed : Selector.t)
    (k : PartKind) (v : string) (e : Error) :
  method k v this = (Throw e, failed) ->
  chain calls failed = chain calls this /\
  exists rs this',
    attempts ((k, v) :: calls) this = (Return (Throw e :: rs), this') /\
    attempts calls this = (Return rs, this') /\
    length rs = length calls /\
    chain (kept calls rs) this = (Return tt, this') /\
    Selector.stringify this' = Selector.stringify (snd (chain (kept calls rs) this)).
Proof.
  intros Hm. pose proof Hm as [-> _]%method_throw. split; [reflexivity|].
  destruct (attempts_kept calls this) as (rs & this' & Ha & Hl & Hc).
  exists rs, this'. rewrite Hc. repeat split; try assumption.
  change (attempts ((k, v) :: calls))
    with (Comp.bind (Comp.try_ (method k v))
            (fun r => Comp.bind (attempts calls) (fun rs => Comp.ret (r :: rs)))).
  unfold Comp.bind, Comp.try_, Comp.ret. now rewrite Hm, Ha.
Qed.

Lemma C10_failed_append_leaves_no_trace_witness :
  let this := snd (chain [(Element, "div"); (Class, "x")] Selector.constructor) in
  let calls := [(Class, "z"); (Element, "q"); (PseudoElement, "after")] in
  chain calls this = chain calls this /\
  exists rs this',
    attempts ((Id, "y") :: calls) this = (Return (Throw OrderViolation :: rs), this') /\
    attempts calls this = (Return rs, this') /\
    length rs = length calls /\
    chain (kept calls rs) this = (Return tt, this') /\
    Selector.stringify this' = Selector.stringify (snd (chain (kept calls rs) this)).
Proof.
  apply (C10_failed_append_leaves_no_trace
           [(Class, "z"); (Element, "q"); (PseudoElement, "after")]
           (snd (chain [(Element, "div"); (Class, "x")] Selector.constructor))
           (snd (chain [(Element, "div"); (Class, "x")] Selector.constructor))
           Id "y" OrderViolation).
  reflexivity.
Defined.

Example attempts_example :
  let '(rs, this) :=
    attempts [(Element, "div"); (Class, "x"); (Id, "y"); (Class, "z");
              (Element, "q"); (PseudoElement, "after")] Selector.constructor in
  rs = Return [Return tt; Return tt; Throw OrderViolation; Return tt;
               Throw OrderViolation; Return tt] /\
  Selector.stringify this = "div.x.z::after".
Proof. split; reflexivity. Qed.

(** ** Sharing *)

(** A call writes to the object it is made on and to no other. *)
Lemma invoke_frame (h : heap) (this l : loc) (m : Selector.M unit) :
  l <> this -> snd (invoke this m h) !! l = h !! l.
Proof.
  intros Hne. unfold invoke. destruct (h !! this) as [[s|]|]; try reflexivity.
  destruct (m s). cbn [snd]. now apply list_lookup_insert_ne.
Qed.

(** C7, as stated: the compound selector at address 0 has been handed to
    the combined selector at address 3 and rendered; a class appended to it
    afterwards changes its fields and the output of the combined selector. *)
Lemma C7_operand_still_mutable_after_combine :
  render example_store 0 = Some "div#main" /\
  render example_store 3 = Some "div#main + table#data" /\
  exists h',
    invoke 0 (Selector.class "container") example_store = (Return 0, h') /\
    h' !! 0 <> example_store !! 0 /\
    render h' 3 = Some "div#main.container + table#data" /\
    render h' 3 <> render example_store 3.
Proof.
  split; [reflexivity|]. split; [reflexivity|].
  eexists. split; [reflexivity|].
  split; [discriminate|]. split; [reflexivity | discriminate].
Qed.

(** C7, amended.  A combined selector has no part-append operation, and no
    operation of the builder changes its [selector1], [combinator] and
    [selector2] after construction.  A compound selector stays mutable
    after it has been handed to a combined selector or rendered: a
    part-append call on it writes what the method writes on any selector.
    [stringify()] of the combined selector renders the operands as they are
    when it is called. *)
Theorem C7_combined_fields_fixed_operands_mutable
    (h : heap) (o : op) (l : loc) (c : CombinedSelector.t) :
  wf h -> closed h o -> h !! l = Some (OCombined c) ->
  let h' := snd (step o h) in
  h' !! l = Some (OCombined c) /\
  (forall k v, invoke l (method k v) h = (Throw TypeError, h)) /\
  (forall this s k v,
      o = Append this k v -> h !! this = Some (OSelector s) ->
      h' !! this = Some (OSelector (snd (method k v s)))) /\
  render h' l =
    match render h' (CombinedSelector.selector1 c),
          render h' (CombinedSelector.selector2 c) with
    | Some s1, Some s2 =>
        Some (s1 +:+ " " +:+ CombinedSelector.combinator c +:+ " " +:+ s2)
    | _, _ => None
    end.
Proof.
  intros Hwf Hc Hl h'.
  assert (h' !! l = Some (OCombined c)) as Hl' by now apply step_keeps_combined.
  repeat split.
  - exact Hl'.
  - intros k v. apply invoke_other. intros s. congruence.
  - intros this s k v -> Hs. unfold h'. cbn [step].
    rewrite (invoke_selector _ _ _ _ Hs). cbn [snd].
    apply list_lookup_insert_eq. eapply lookup_lt_Some, Hs.
  - apply render_combined; [now apply wf_step | exact Hl'].
Qed.

Lemma C7_combined_fields_fixed_operands_mutable_witness :
  let c := CombinedSelector.mk 0 "+" 1 in
  let h' := snd (step (Append 0 Class "container") example_store) in
  h' !! 3 = Some (OCombined c) /\
  (forall k v, invoke 3 (method k v) example_store = (Throw TypeError, example_store)) /\
  (forall this s k v,
      Append 0 Class "container" = Append this k v ->
      example_store !! this = Some (OSelector s) ->
      h' !! this = Some (OSelector (snd (method k v s)))) /\
  render h' 3 =
    match render h' (CombinedSelector.selector1 c),
          render h' (CombinedSelector.selector2 c) with
    | Some s1, Some s2 =>
        Some (s1 +:+ " " +:+ CombinedSelector.combinator c +:+ " " +:+ s2)
    | _, _ => None
    end.
Proof.
  apply (C7_combined_fields_fixed_operands_mutable example_store
           (Append 0 Class "container") 3 (CombinedSelector.mk 0 "+" 1)).
  - apply wf_check_ok. reflexivity.
  - vm_compute. lia.
  - reflexivity.
Defined.

(** ** The entry points of the builder *)

Lemma method_constructor (k : PartKind) (v : string) :
  method k v Selector.constructor =
  (Return tt, Selector.mk (store k v (Selector.parts Selector.constructor)) [name k]).
Proof. destruct k; reflexivity. Qed.

(** C8.  Each of the six entry points of the builder is the construction
    of an empty compound selector followed by one part-append call on it,
    whose checks pass on the empty history.  The builder keeps nothing:
    the new object does not depend on the store, the objects already there
    stay as they are, and the objects of two calls are distinct, a call on
    one writing nothing to the other. *)
Theorem C8_entry_point_is_new_then_append
    (k1 k2 : PartKind) (v1 v2 : string) (h : heap) :
  start k1 v1 = start_spec k1 v1 /\
  (exists this',
     method k1 v1 Selector.constructor = (Return tt, this') /\
     start k1 v1 h = (Return (length h), h ++ [OSelector this'])) /\
  (exists l1 l2 h2,
     (l1 <- start k1 v1;; l2 <- start k2 v2;; Comp.ret (l1, l2)) h
       = (Return (l1, l2), h2) /\
     l1 <> l2 /\
     (forall l, l < length h -> h2 !! l = h !! l) /\
     (forall k v,
        snd (invoke l1 (method k v) h2) !! l2 = h2 !! l2 /\
        snd (invoke l2 (method k v) h2) !! l1 = h2 !! l1)).
Proof.
  split; [destruct k1; reflexivity|]. split.
  - eexists. split; [apply method_constructor | apply start_new].
  - unfold Comp.bind, Comp.ret. rewrite (start_new k1 v1 h), start_new.
    do 3 eexists. split; [reflexivity|].
    rewrite length_app. cbn [length].
    split; [lia|]. split.
    + intros l Hl. now rewrite !lookup_app_l by (rewrite ?length_app; lia).
    + intros k v. split; apply invoke_frame; lia.
Qed.

(** ** Chains on an object of the store *)

Lemma chain_cons_returns (k : PartKind) (v : string) (rest : list (PartKind * string))
    (s s' : Selector.t) :
  chain ((k, v) :: rest) s = (Return tt, s') ->
  exists s1, method k v s = (Return tt, s1) /\ chain rest s1 = (Return tt, s').
Proof.
  change (chain ((k, v) :: rest) s)
    with (Comp.bind (method k v) (fun _ => chain rest) s).
  unfold Comp.bind. destruct (method k v s) as [[[]|e] s1]; [eauto | discriminate].
Qed.

Lemma invoke_chain_selector (calls : list (PartKind * string)) (h : heap) (this : loc)
    (s s' : Selector.t) :
  h !! this = Some (OSelector s) ->
  chain calls s = (Return tt, s') ->
  invoke_chain this calls h = (Return this, <[this := OSelector s']> h).
Proof.
  revert h s. induction calls as [|[k v] rest IH]; intros h s Hs Hc.
  - injection Hc as <-. cbn. unfold Comp.ret. now rewrite list_insert_id.
  - apply chain_cons_returns in Hc as (s1 & Hm & Hc).
    cbn [invoke_chain]. unfold Comp.bind.
    rewrite (invoke_selector _ _ _ _ Hs), Hm. cbn [fst snd].
    rewrite (IH _ s1); [|apply list_lookup_insert_eq; eapply lookup_lt_Some, Hs|exact Hc].
    now rewrite list_insert_insert_eq.
Qed.

(** C1.  A compound selector built by a sequence of part-append calls that
    respects the canonical rank order and the single-shot limits: every
    call returns, and [stringify()] is the concatenation, with nothing in
    between, of the element value, [#id] if present, each class as [.c] in
    append order, each attribute as [[a]] in append order, each pseudo-class
    as [:p] in append order, and [::pseudoElement] if present. *)
Theorem C1_stringify_of_valid_sequence (calls : list (PartKind * string)) (h : heap) :
  valid_sequence (map fst calls) = true ->
  exists this,
    chain calls Selector.constructor = (Return tt, this) /\
    Selector.stringify this = render_spec calls /\
    (s <- new (OSelector Selector.constructor);; invoke_chain s calls) h
      = (Return (length h), h ++ [OSelector this]) /\
    render (h ++ [OSelector this]) (length h) = Some (render_spec calls).
Proof.
  intros Hv. eexists. split; [apply chain_valid, Hv|].
  split; [apply stringify_parts_of|]. split.
  - unfold Comp.bind, new.
    rewrite (invoke_chain_selector calls _ _ Selector.constructor
               (Selector.mk (parts_of calls) (map name (map fst calls))));
      [|now apply list_lookup_middle|apply chain_valid, Hv].
    f_equal. rewrite insert_app_r_alt by lia. now rewrite Nat.sub_diag.
  - erewrite render_selector; [|now apply list_lookup_middle].
    now rewrite stringify_parts_of.
Qed.

Lemma C1_stringify_of_valid_sequence_witness :
  exists this,
    chain [(Element, "div"); (Id, "main"); (Class, "container"); (Class, "draggable");
           (Attr, "href"); (PseudoClass, "focus"); (PseudoElement, "before")]
      Selector.constructor = (Return tt, this) /\
    Selector.stringify this =
    render_spec [(Element, "div"); (Id, "main"); (Class, "container");
                 (Class, "draggable"); (Attr, "href"); (PseudoClass, "focus");
                 (PseudoElement, "before")] /\
    (s <- new (OSelector Selector.constructor);;
     invoke_chain s
       [(Element, "div"); (Id, "main"); (Class, "container"); (Class, "draggable");
        (Attr, "href"); (PseudoClass, "focus"); (PseudoElement, "before")]) []
      = (Return (length ([] : heap)), [] ++ [OSelector this]) /\
    render ([] ++ [OSelector this]) (length ([] : heap)) =
    Some (render_spec [(Element, "div"); (Id, "main"); (Class, "container");
                       (Class, "draggable"); (Attr, "href"); (PseudoClass, "focus");
                       (PseudoElement, "before")]).
Proof.
  apply (C1_stringify_of_valid_sequence
           [(Element, "div"); (Id, "main"); (Class, "container"); (Class, "draggable");
            (Attr, "href"); (PseudoClass, "focus"); (PseudoElement, "before")] []).
  reflexivity.
Defined.

(** ** The examples of the source's documentation *)

(** [builder.id('main').class('container').class('editable').stringify()] *)
Example builder_example_1 :
  let '(r, h) :=
    (s <- cssSelectorBuilder.id "main";;
     s <- invoke s (Selector.class "container");;
     invoke s (Selector.class "editable")) [] in
  r = Return 0 /\ render h 0 = Some "#main.container.editable".
Proof. split; reflexivity. Qed.

(** The nested [combine] of the documentation; the descendant combinator
    [' '] shows as three spaces. *)
Example builder_example_3 :
  let '(r, h) :=
    (a <- cssSelectorBuilder.element "div";;
     a <- invoke a (Selector.id "main");;
     a <- invoke a (Selector.class "container");;
     a <- invoke a (Selector.class "draggable");;
     b <- cssSelectorBuilder.element "table";;
     b <- invoke b (Selector.id "data");;
     c <- cssSelectorBuilder.element "tr";;
     c <- invoke c (Selector.pseudoClass "nth-of-type(even)");;
     d <- cssSelectorBuilder.element "td";;
     d <- invoke d (Selector.pseudoClass "nth-of-type(even)");;
     cd <- cssSelectorBuilder.combine c " " d;;
     bcd <- cssSelectorBuilder.combine b "~" cd;;
     cssSelectorBuilder.combine a "+" bcd) [] in
  r = Return 6 /\
  render h 6 =
  Some "div#main.container.draggable + table#data ~ tr:nth-of-type(even)   td:nth-of-type(even)".
Proof. split; reflexivity. Qed.

(** [pseudoElement] twice on the same object: the duplicate error. *)
Example builder_example_duplicate :
  fst ((s <- cssSelectorBuilder.pseudoElement "after";;
        invoke s (Selector.pseudoElement "before")) [])
  = Throw DuplicatePartViolation.
Proof. reflexivity. Qed.

(** [id] after [class]: the order error. *)
Example builder_example_order :
  fst ((s <- cssSelectorBuilder.class "main";;
        invoke s (Selector.id "id")) [])
  = Throw OrderViolation.
Proof. reflexivity. Qed.


(** * Further properties of the selector builder *)

(** ** Which chains return *)

(** A chain of part-append calls on a new selector returns exactly when
    the kinds of its calls never go down in rank and [element], [id] and
    [pseudoElement] occur at most once. *)
Theorem chain_returns_iff_valid (calls : list (PartKind * string)) :
  fst (chain calls Selector.constructor) = Return tt <->
  valid_sequence (map fst calls) = true.
Proof.
  split.
  - destruct (chain calls Selector.constructor) as [r s] eqn:Hc. cbn [fst].
    intros ->. now apply chain_returns in Hc.
  - intros Hv. now rewrite (chain_valid _ Hv).
Qed.

(** A chain ends at the first call that breaks the order or a limit, with
    the order error when the rank goes down and the duplicate error
    otherwise; the fields are those of the calls before it, and the calls
    after it are not made. *)
Theorem chain_first_violation
    (calls1 calls2 : list (PartKind * string)) (k : PartKind) (v : string) :
  valid_sequence (map fst calls1) = true ->
  valid_sequence (map fst calls1 ++ [k]) = false ->
  chain (calls1 ++ (k, v) :: calls2) Selector.constructor =
  (Throw (if (rank k <? lastRank (map fst calls1))%Z
          then OrderViolation else DuplicatePartViolation),
   Selector.mk (parts_of calls1) (map name (map fst calls1))).
Proof.
  intros Hv Hbad. rewrite chain_app, (chain_valid _ Hv).
  change (chain ((k, v) :: calls2))
    with (Comp.bind (method k v) (fun _ => chain calls2)).
  unfold Comp.bind. rewrite method_kind.
  destruct (rank k <? lastRank (map fst calls1))%Z eqn:Hr; [reflexivity|].
  destruct (single_shot k && bool_decide (k ∈ map fst calls1)) eqn:Hd; [reflexivity|].
  exfalso. apply not_true_iff_false in Hbad. apply Hbad, valid_sequence_snoc.
  repeat split; [assumption | now apply Z.ltb_ge |].
  intros Hk. rewrite Hk in Hd. now apply bool_decide_eq_false in Hd.
Qed.

Lemma chain_first_violation_witness :
  chain ([(Element, "a"); (Class, "b")] ++ (Id, "c") :: [(Class, "d")])
    Selector.constructor =
  (Throw OrderViolation,
   Selector.mk (parts_of [(Element, "a"); (Class, "b")]) ["element"; "class"]).
Proof.
  apply (chain_first_violation [(Element, "a"); (Class, "b")] [(Class, "d")] Id "c");
    reflexivity.
Defined.

(** ** The output in the order of the calls *)

Lemma append_nil_r (s : string) : s +:+ "" = s.
Proof.
  induction s as [|a s IH]; [reflexivity|].
  change (String a (s +:+ "") = String a s). now rewrite IH.
Qed.

Lemma concat_snoc (l : list string) (x : string) :
  String.concat "" (l ++ [x]) = String.concat "" l +:+ x.
Proof.
  induction l as [|y [|z l] IH]; [reflexivity | reflexivity |].
  change (String.concat "" ((y :: z :: l) ++ [x]))
    with (y +:+ "" +:+ String.concat "" ((z :: l) ++ [x])).
  change (String.concat "" (y :: z :: l))
    with (y +:+ "" +:+ String.concat "" (z :: l)).
  rewrite IH. cbn [String.append]. now rewrite append_assoc.
Qed.

(** In a valid sequence nothing of a higher rank comes before a call, and
    nothing of its own kind when the kind is single-shot. *)
Lemma of_kind_before (calls : list (PartKind * string)) (k k' : PartKind) :
  valid_sequence (map fst calls ++ [k]) = true ->
  (rank k < rank k')%Z \/ (k' = k /\ single_shot k = true) ->
  of_kind k' calls = [].
Proof.
  intros (Hv & Hr & Hk)%valid_sequence_snoc Hc. apply of_kind_absent.
  destruct Hc as [Hlt|[-> Hs]]; [|auto].
  intros Hin. apply andb_true_iff in Hv as [Hnd _].
  pose proof (nondecreasing_below_last _ _ Hnd Hin). lia.
Qed.

Lemma render_spec_snoc (calls : list (PartKind * string)) (k : PartKind) (v : string) :
  valid_sequence (map fst calls ++ [k]) = true ->
  render_spec (calls ++ [(k, v)]) = render_spec calls +:+ rendered (k, v).
Proof.
  intros Hv. pose proof (of_kind_before calls k) as Habs.
  unfold render_spec, single, repeated. rewrite !of_kind_snoc.
  destruct k; cbn [decide decide_rel PartKind_eq_dec];
    repeat match goal with
      | |- context [decide (?a = ?b)] => destruct (decide (a = b)); try congruence
      end;
    rewrite ?app_nil_r;
    repeat match goal with
      | |- context [of_kind ?k' calls] =>
          rewrite (Habs k' Hv) by (first [left; reflexivity | right; split; reflexivity])
      end;
    rewrite ?map_app;
    cbn [app head from_option map String.concat rendered];
    rewrite ?concat_snoc, ?append_nil_r, ?append_assoc; reflexivity.
Qed.

Lemma render_spec_in_call_order (calls : list (PartKind * string)) :
  valid_sequence (map fst calls) = true ->
  render_spec calls = String.concat "" (map rendered calls).
Proof.
  induction calls as [|[k v] calls IH] using rev_ind; [reflexivity|].
  rewrite map_app. cbn [map fst]. intros Hv.
  rewrite render_spec_snoc by exact Hv.
  rewrite map_app. cbn [map]. rewrite concat_snoc. f_equal.
  apply IH. now apply valid_sequence_snoc in Hv.
Qed.

(** When a chain on a new selector returns, [stringify()] is the parts as
    they render, one after the other in the order of the calls. *)
Theorem stringify_in_call_order (calls : list (PartKind * string)) (this : Selector.t) :
  chain calls Selector.constructor = (Return tt, this) ->
  Selector.stringify this = String.concat "" (map rendered calls).
Proof.
  intros [Hv ->]%chain_returns.
  now rewrite stringify_parts_of, render_spec_in_call_order.
Qed.

Lemma stringify_in_call_order_witness :
  Selector.stringify
    (snd (chain [(Id, "main"); (Class, "x"); (Class, "y"); (PseudoClass, "hover")]
            Selector.constructor)) =
  String.concat ""
    (map rendered [(Id, "main"); (Class, "x"); (Class, "y"); (PseudoClass, "hover")]).
Proof.
  apply (stringify_in_call_order
           [(Id, "main"); (Class, "x"); (Class, "y"); (PseudoClass, "hover")]).
  reflexivity.
Defined.

(** ** Repeatable parts *)

Lemma lastIndex_snoc (o : list string) (x : string) :
  (if (0 <? length (o ++ [x]))%nat
   then indexOf ["element"; "id"; "class"; "attr"; "pseudoClass"; "pseudoElement"]
          (nth (length (o ++ [x]) - 1) (o ++ [x]) "")
   else (-1)%Z)
  = indexOf ["element"; "id"; "class"; "attr"; "pseudoClass"; "pseudoElement"] x.
Proof.
  rewrite length_app. cbn [length].
  replace (0 <? length o + 1)%nat with true by (symmetry; apply Nat.ltb_lt; lia).
  rewrite app_nth2 by lia.
  now replace (length o + 1 - 1 - length o) with 0 by lia.
Qed.

(** [class], [attr] and [pseudoClass] never throw the duplicate error,
    whatever the selector; right after a part of the same kind the call
    returns and records the part. *)
Theorem repeatable_part_again
    (this : Selector.t) (k : PartKind) (v : string) :
  single_shot k = false ->
  fst (method k v this) <> Throw DuplicatePartViolation /\
  (last (Selector.order this) = Some (name k) ->
   method k v this =
   (Return tt,
    Selector.mk (store k v (Selector.parts this)) (Selector.order this ++ [name k]))).
Proof.
  intros Hs. rewrite method_checkOrder.
  unfold Comp.bind, Selector.checkOrder. unfold Comp.bind, Comp.gets.
  cbv beta iota zeta.
  rewrite includes_single_shot, Hs. cbn [andb]. split.
  - destruct (_ <? _)%Z; cbn; discriminate.
  - intros [o Ho]%last_Some. rewrite Ho, lastIndex_snoc, indexOf_name, Z.ltb_irrefl.
    cbn. now rewrite Ho.
Qed.

Lemma repeatable_part_again_witness :
  fst (method Class "draggable"
         (snd (chain [(Element, "div"); (Class, "container")] Selector.constructor)))
  <> Throw DuplicatePartViolation /\
  (last (Selector.order
           (snd (chain [(Element, "div"); (Class, "container")] Selector.constructor)))
   = Some (name Class) ->
   method Class "draggable"
     (snd (chain [(Element, "div"); (Class, "container")] Selector.constructor)) =
   (Return tt,
    Selector.mk
      (store Class "draggable"
         (Selector.parts
            (snd (chain [(Element, "div"); (Class, "container")] Selector.constructor))))
      (Selector.order
         (snd (chain [(Element, "div"); (Class, "container")] Selector.constructor))
       ++ [name Class]))).
Proof.
  apply (repeatable_part_again
           (snd (chain [(Element, "div"); (Class, "container")] Selector.constructor))
           Class "draggable").
  reflexivity.
Defined.

(** ** After the pseudo-element *)

(** Once a pseudo-element has been appended the selector takes no further
    part: a second [pseudoElement] throws the duplicate error and every
    other part-append call the order error. *)
Theorem nothing_after_pseudoElement
    (calls : list (PartKind * string)) (this : Selector.t) (k : PartKind) (v : string) :
  chain calls Selector.constructor = (Return tt, this) ->
  PseudoElement ∈ map fst calls ->
  method k v this =
  (Throw (if decide (k = PseudoElement) then DuplicatePartViolation else OrderViolation),
   this).
Proof.
  intros [Hv ->]%chain_returns Hin. apply andb_true_iff in Hv as [Hnd _].
  pose proof (nondecreasing_below_last _ _ Hnd Hin) as Hlast.
  rewrite method_kind. cbn [rank] in Hlast.
  destruct (decide (k = PseudoElement)) as [->|Hne].
  - replace (rank PseudoElement <? lastRank (map fst calls))%Z with false.
    + cbn [single_shot andb]. now rewrite (bool_decide_eq_true_2 _ Hin).
    + symmetry. apply Z.ltb_ge. unfold lastRank in *.
      destruct (last (map fst calls)) as [[]|]; cbn [rank] in *; lia.
  - replace (rank k <? lastRank (map fst calls))%Z with true; [reflexivity|].
    symmetry. apply Z.ltb_lt. destruct k; cbn [rank]; (lia || congruence).
Qed.

Lemma nothing_after_pseudoElement_witness :
  method Class "x"
    (snd (chain [(Element, "p"); (PseudoElement, "first-line")] Selector.constructor)) =
  (Throw OrderViolation,
   snd (chain [(Element, "p"); (PseudoElement, "first-line")] Selector.constructor)).
Proof.
  apply (nothing_after_pseudoElement
           [(Element, "p"); (PseudoElement, "first-line")] _ Class "x").
  - reflexivity.
  - apply list_elem_of_In. simpl. auto.
Defined.

(** ** Whatever calls are made *)



(** ** What a call on one object does to the output of another *)

Lemma stringify_agree (h h' : heap) (fuel : nat) (l : loc) :
  (forall x, reads h l x -> h' !! x = h !! x) ->
  stringify fuel h' l = stringify fuel h l.
Proof.
  revert l. induction fuel as [|fuel IH]; intros l Hag; [reflexivity|].
  cbn [stringify]. rewrite (Hag l (reads_self h l)).
  destruct (h !! l) as [[s|c]|] eqn:Hl; try reflexivity.
  rewrite (IH (CombinedSelector.selector1 c)), (IH (CombinedSelector.selector2 c));
    [reflexivity|..]; intros x Hx; apply Hag.
  - eapply reads_selector2; eassumption.
  - eapply reads_selector1; eassumption.
Qed.

Lemma invoke_length (h : heap) (this : loc) (m : Selector.M unit) :
  length (snd (invoke this m h)) = length h.
Proof.
  unfold invoke. destruct (h !! this) as [[s|]|]; try reflexivity.
  destruct (m s). cbn [snd]. apply length_insert.
Qed.

(** A part-append call on a selector, whether it returns or throws,
    leaves the output of every selector that is not built from it as it
    was. *)
Theorem invoke_keeps_other_outputs
    (h : heap) (this l : loc) (k : PartKind) (v : string) :
  ~ reads h l this ->
  render (snd (invoke this (method k v) h)) l = render h l.
Proof.
  intros Hnr. unfold render. rewrite invoke_length.
  apply stringify_agree. intros x Hx. apply invoke_frame.
  intros ->. contradiction.
Qed.

Lemma invoke_keeps_other_outputs_witness :
  render (snd (invoke 2 (method Class "odd") example_store)) 3 = render example_store 3.
Proof.
  apply (invoke_keeps_other_outputs example_store 2 3 Class "odd").
  intros Hr. inversion Hr as [|l x c Hl H1|l x c Hl H2]; subst.
  - injection Hl as <-. cbn in H1.
    inversion H1 as [|l x c Hl' _|l x c Hl' _]; discriminate Hl'.
  - injection Hl as <-. cbn in H2.
    inversion H2 as [|l x c Hl' _|l x c Hl' _]; discriminate Hl'.
Defined.

(** ** Every selector that can be built renders *)

(** In a store built by the operations of the builder, on references to
    objects that exist, [stringify()] returns a string for every object:
    no operand is missing and no combined selector contains itself. *)
Theorem reachable_renders (h : heap) (l : loc) :
  reachable h -> l < length h -> is_Some (render h l).
Proof. intros Hr Hl. apply render_total; [now apply wf_reachable | exact Hl]. Qed.

Lemma reachable_renders_witness :
  is_Some (render (snd (step (Combine 0 ">" 0) (snd (step (Start Class "x") [])))) 1).
Proof.
  apply (reachable_renders (snd (step (Combine 0 ">" 0) (snd (step (Start Class "x") [])))) 1).
  - apply reach_step; [apply reach_step; [apply reach_empty | exact I]|].
    split; vm_compute; lia.
  - vm_compute. lia.
Defined.

(** * Properties of the generators of [task/07-yield-tasks.js] *)

(** ** Generators *)

Lemma first_take {St A : Type} (next : St -> option (A * St)) (n m : nat) (s : St) :
  n <= m -> Gen.first n next s = take n (Gen.first m next s).
Proof.
  revert m s. induction n as [|n IH]; intros m s Hle; [reflexivity|].
  destruct m as [|m]; [lia|]. cbn [Gen.first].
  destruct (next s) as [[a s']|]; [|reflexivity].
  cbn [take]. f_equal. apply IH. lia.
Qed.

Lemma all_first {St A : Type} (next : St -> option (A * St)) (fuel : nat) (s : St)
    (l : list A) :
  Gen.all fuel next s = Some l -> forall n, Gen.first n next s = take n l.
Proof.
  revert s l. induction fuel as [|fuel IH]; intros s l; cbn [Gen.all].
  - destruct (next s) as [[a s']|] eqn:Hn; [discriminate|].
    intros [= <-] [|n]; cbn [Gen.first]; now rewrite ?Hn.
  - destruct (next s) as [[a s']|] eqn:Hn.
    + destruct (Gen.all fuel next s') as [l'|] eqn:Ha; [|discriminate].
      intros [= <-] [|n]; [reflexivity|]. cbn [Gen.first]. rewrite Hn.
      cbn [take]. f_equal. now apply IH.
    + intros [= <-] [|n]; cbn [Gen.first]; now rewrite ?Hn.
Qed.

(** ** [getFibonacciSequence] *)

Lemma fib_pair_fib (n : nat) : fib_pair n = (fib n, fib (S n)).
Proof.
  induction n as [|n IH]; [reflexivity|].
  cbn [fib_pair]. rewrite IH. reflexivity.
Qed.

Lemma fib_by_pair (n : nat) : fib n = fst (fib_pair n).
Proof. now rewrite fib_pair_fib. Qed.

Lemma fibs_by_pair (n : nat) :
  map (fun i => Some (fib i)) (seq 0 n) = map (fun i => Some (fst (fib_pair i))) (seq 0 n).
Proof. apply map_ext. intros i. now rewrite fib_pair_fib. Qed.

(** The first 79 values of the sequence are the Fibonacci numbers [fib 0]
    to [fib 78], exactly.  The next one is not: [fib 79] is above [2^53]
    and odd, and the sum of the two floats is the even number below it. *)
Theorem getFibonacciSequence_exact_prefix (n : nat) :
  n <= 79 ->
  map integer_of_float (Gen.first n getFibonacciSequence_next getFibonacciSequence)
    = map (fun i => Some (fib i)) (seq 0 n) /\
  (integer_of_float <$>
     Gen.first 80 getFibonacciSequence_next getFibonacciSequence !! 79)
    = Some (Some 14472334024676220%Z) /\
  fib 79 = 14472334024676221%Z.
Proof.
  intros Hn. split; [|split].
  - assert (map integer_of_float
              (Gen.first 79 getFibonacciSequence_next getFibonacciSequence)
            = map (fun i => Some (fib i)) (seq 0 79)) as H79
      by (rewrite fibs_by_pair; vm_compute; reflexivity).
    rewrite (first_take _ n 79) by exact Hn.
    replace (seq 0 n) with (take n (seq 0 79))
      by (rewrite take_seq; f_equal; lia).
    now rewrite <- !firstn_map, H79.
  - vm_compute. reflexivity.
  - rewrite (fib_by_pair 79). vm_compute. reflexivity.
Qed.

Lemma getFibonacciSequence_exact_prefix_witness :
  map integer_of_float (Gen.first 10 getFibonacciSequence_next getFibonacciSequence)
    = map (fun i => Some (fib i)) (seq 0 10) /\
  (integer_of_float <$>
     Gen.first 80 getFibonacciSequence_next getFibonacciSequence !! 79)
    = Some (Some 14472334024676220%Z) /\
  fib 79 = 14472334024676221%Z.
Proof. apply (getFibonacciSequence_exact_prefix 10). lia. Defined.

(** ** Trees *)

Lemma sizes_nil {A : Type} : sizes (@nil (node A)) = 0.
Proof. reflexivity. Qed.

Lemma sizes_cons {A : Type} (c : node A) (l : list (node A)) :
  sizes (c :: l) = size c + sizes l.
Proof. reflexivity. Qed.

Lemma size_kids {A : Type} (nd : node A) : size nd = S (sizes (kids nd)).
Proof.
  destruct nd as [a [cs|]]; [|reflexivity].
  cbn [size kids]. f_equal.
  induction cs as [|c cs IH]; [reflexivity|]. now rewrite sizes_cons, IH.
Qed.

Lemma preorder_kids {A : Type} (nd : node A) :
  preorder nd = nd :: flat_map preorder (kids nd).
Proof. destruct nd as [a [cs|]]; reflexivity. Qed.

Lemma sizes_app {A : Type} (l1 l2 : list (node A)) :
  sizes (l1 ++ l2) = sizes l1 + sizes l2.
Proof.
  induction l1 as [|c l1 IH]; [reflexivity|].
  cbn [app]. rewrite !sizes_cons, IH. lia.
Qed.

Lemma sizes_rev {A : Type} (l : list (node A)) : sizes (rev l) = sizes l.
Proof.
  induction l as [|c l IH]; [reflexivity|].
  cbn [rev]. rewrite sizes_app, IH, !sizes_cons, sizes_nil. lia.
Qed.

Lemma size_pos {A : Type} (nd : node A) : 0 < size nd.
Proof. rewrite size_kids. lia. Qed.

Lemma sizes_zero {A : Type} (l : list (node A)) : sizes l = 0 -> l = [].
Proof.
  destruct l as [|c l]; [reflexivity|]. rewrite sizes_cons.
  pose proof (size_pos c). lia.
Qed.

Lemma length_preorders {A : Type} (l : list (node A)) :
  (forall nd : node A, size nd <= sizes l -> length (preorder nd) = size nd) ->
  length (flat_map preorder l) = sizes l.
Proof.
  induction l as [|c l IH]; intros Hp; [reflexivity|].
  cbn [flat_map]. rewrite length_app, sizes_cons. rewrite sizes_cons in Hp.
  rewrite Hp by lia. f_equal. apply IH. intros nd Hnd. apply Hp. lia.
Qed.

Lemma length_preorder {A : Type} (nd : node A) : length (preorder nd) = size nd.
Proof.
  remember (size nd) as n eqn:Hn. revert nd Hn.
  induction n as [n IH] using lt_wf_ind. intros nd ->.
  rewrite preorder_kids, size_kids. cbn [length]. f_equal.
  apply length_preorders. intros c Hc. apply (IH (size c)); [|reflexivity].
  rewrite (size_kids nd). lia.
Qed.

(** ** [depthTraversalTree] *)

Lemma push_down_rev {A : Type} (i : nat) (cs stack : list (node A)) :
  i <= length cs -> push_down i cs stack = stack ++ rev (take i cs).
Proof.
  revert stack. induction i as [|i IH]; intros stack Hi.
  - cbn. now rewrite app_nil_r.
  - cbn [push_down]. destruct (lookup_lt_is_Some_2 cs i) as [c Hc]; [lia|].
    rewrite Hc, IH by lia. rewrite (take_S_r _ _ _ Hc), rev_app_distr.
    cbn [rev app]. now rewrite <- app_assoc.
Qed.

Lemma depthTraversalTree_next_push {A : Type} (stack : list (node A)) (nd : node A) :
  depthTraversalTree_next (stack ++ [nd]) = Some (nd, stack ++ rev (kids nd)).
Proof.
  unfold depthTraversalTree_next. rewrite last_snoc, removelast_last.
  destruct nd as [a [cs|]]; cbn [kids rev].
  - rewrite push_down_rev by lia. now rewrite firstn_all.
  - now rewrite app_nil_r.
Qed.

Lemma depthTraversalTree_all {A : Type} (fuel : nat) (stack : list (node A)) :
  sizes stack <= fuel ->
  Gen.all fuel depthTraversalTree_next stack = Some (flat_map preorder (rev stack)).
Proof.
  revert stack. induction fuel as [|fuel IH]; intros stack Hs.
  - rewrite (sizes_zero stack) by lia. reflexivity.
  - destruct stack as [|nd stack _] using rev_ind; [reflexivity|].
    cbn [Gen.all]. rewrite depthTraversalTree_next_push.
    rewrite sizes_app, sizes_cons, size_kids, sizes_nil in Hs.
    rewrite IH by (rewrite sizes_app, sizes_rev; lia).
    rewrite !rev_app_distr, rev_involutive. cbn [rev app flat_map].
    now rewrite flat_map_app, preorder_kids.
Qed.

(** The depth-first traversal ends after as many values as the tree has
    nodes and yields them in preorder: each node before its children, the
    subtree of a child before the next child. *)
Theorem depthTraversalTree_preorder {A : Type} (root : node A) (fuel : nat) :
  size root <= fuel ->
  Gen.all fuel depthTraversalTree_next (depthTraversalTree root) = Some (preorder root) /\
  length (preorder root) = size root.
Proof.
  intros Hf. split; [|apply length_preorder].
  unfold depthTraversalTree. rewrite depthTraversalTree_all.
  - cbn [rev app flat_map]. now rewrite app_nil_r.
  - rewrite sizes_cons, sizes_nil. lia.
Qed.

Lemma depthTraversalTree_preorder_witness :
  Gen.all 7 depthTraversalTree_next (depthTraversalTree example_tree)
    = Some (preorder example_tree) /\
  length (preorder example_tree) = size example_tree.
Proof. apply (depthTraversalTree_preorder example_tree 7). vm_compute. lia. Defined.

Example depthTraversalTree_example :
  option_map (map label)
    (Gen.all 7 depthTraversalTree_next (depthTraversalTree example_tree))
  = Some [1; 2; 3; 4; 5; 6; 7].
Proof. reflexivity. Qed.

(** ** [breadthTraversalTree] *)

Lemma push_all {A : Type} (cs queue : list (node A)) :
  fold_left (fun q child => q ++ [child]) cs queue = queue ++ cs.
Proof.
  revert queue. induction cs as [|c cs IH]; intros queue; cbn [fold_left].
  - now rewrite app_nil_r.
  - now rewrite IH, <- app_assoc.
Qed.

Lemma breadthTraversalTree_next_shift {A : Type} (nd : node A) (queue : list (node A)) :
  breadthTraversalTree_next (nd :: queue) = Some (nd, queue ++ kids nd).
Proof.
  destruct nd as [a [cs|]]; cbn [breadthTraversalTree_next kids].
  - now rewrite push_all.
  - now rewrite app_nil_r.
Qed.

(** The nodes at the front of the queue come out as they are; their
    children go behind what is already there. *)
Lemma breadthTraversalTree_front {A : Type} (q r : list (node A)) (fuel : nat) :
  length q <= fuel ->
  Gen.all fuel breadthTraversalTree_next (q ++ r) =
  match Gen.all (fuel - length q) breadthTraversalTree_next (r ++ flat_map kids q) with
  | Some l => Some (q ++ l)
  | None => None
  end.
Proof.
  revert r fuel. induction q as [|nd q IH]; intros r fuel Hf.
  - cbn [app flat_map length]. rewrite app_nil_r, Nat.sub_0_r.
    now destruct (Gen.all fuel breadthTraversalTree_next r).
  - destruct fuel as [|fuel]; [cbn in Hf; lia|].
    cbn [app Gen.all]. rewrite breadthTraversalTree_next_shift.
    rewrite <- app_assoc, IH by (cbn in Hf; lia).
    cbn [flat_map length]. rewrite <- app_assoc. cbn [Nat.sub].
    now destruct (Gen.all _ _ _).
Qed.

Lemma sizes_kids {A : Type} (q : list (node A)) :
  sizes q = length q + sizes (flat_map kids q).
Proof.
  induction q as [|nd q IH]; [reflexivity|].
  cbn [flat_map length]. rewrite sizes_cons, sizes_app, size_kids, IH. lia.
Qed.

Lemma generation_nil {A : Type} (d : nat) : generation d (@nil (node A)) = [].
Proof. induction d as [|d IH]; [reflexivity | exact IH]. Qed.

Lemma generations_nil {A : Type} (n : nat) : generations n (@nil (node A)) = [].
Proof.
  unfold generations. generalize 0 as j.
  induction n as [|n IH]; intros j; [reflexivity|].
  cbn [seq flat_map]. now rewrite generation_nil, IH.
Qed.

Lemma generations_S {A : Type} (n : nat) (q : list (node A)) :
  generations (S n) q = q ++ generations n (flat_map kids q).
Proof.
  unfold generations. cbn [seq flat_map generation]. f_equal.
  rewrite <- seq_shift, flat_map_concat_map, map_map, <- flat_map_concat_map.
  reflexivity.
Qed.

Lemma breadthTraversalTree_all {A : Type} (n fuel : nat) (q : list (node A)) :
  sizes q <= n -> sizes q <= fuel ->
  Gen.all fuel breadthTraversalTree_next q = Some (generations n q).
Proof.
  revert fuel q. induction n as [|n IH]; intros fuel q Hn Hf.
  - rewrite (sizes_zero q) by lia. now destruct fuel.
  - destruct q as [|nd q'] eqn:Hq.
    + rewrite generations_nil. now destruct fuel.
    + rewrite <- Hq in *. assert (0 < length q) by (subst q; cbn; lia).
      pose proof (sizes_kids q) as Hk.
      rewrite <- (app_nil_r q) at 1.
      rewrite breadthTraversalTree_front by lia. cbn [app].
      rewrite (IH _ _) by lia. now rewrite generations_S.
Qed.

(** The breadth-first traversal ends after as many values as the tree has
    nodes and yields them level by level: the root, then its children,
    then their children, each level from left to right. *)
Theorem breadthTraversalTree_levels {A : Type} (root : node A) (fuel : nat) :
  size root <= fuel ->
  Gen.all fuel breadthTraversalTree_next (breadthTraversalTree root)
  = Some (generations (size root) [root]).
Proof.
  intros Hf. apply breadthTraversalTree_all; rewrite sizes_cons, sizes_nil; lia.
Qed.

Lemma breadthTraversalTree_levels_witness :
  Gen.all 7 breadthTraversalTree_next (breadthTraversalTree example_tree)
  = Some (generations (size example_tree) [example_tree]).
Proof. apply (breadthTraversalTree_levels example_tree 7). vm_compute. lia. Defined.

Example breadthTraversalTree_example :
  option_map (map label)
    (Gen.all 7 breadthTraversalTree_next (breadthTraversalTree example_tree))
  = Some [1; 2; 5; 6; 3; 4; 7].
Proof. reflexivity. Qed.

(** ** The two traversals yield the same nodes *)

Lemma preorders_by_level {A : Type} (q : list (node A)) :
  flat_map preorder q ≡ₚ q ++ flat_map preorder (flat_map kids q).
Proof.
  induction q as [|nd q IH]; [reflexivity|].
  cbn [flat_map]. rewrite flat_map_app, (preorder_kids nd). cbn [app].
  apply Permutation_cons; [reflexivity|].
  rewrite IH at 1. apply Permutation_app_swap_app.
Qed.

Lemma generations_preorder {A : Type} (n : nat) (q : list (node A)) :
  sizes q <= n -> generations n q ≡ₚ flat_map preorder q.
Proof.
  revert q. induction n as [|n IH]; intros q Hn.
  - now rewrite (sizes_zero q) by lia.
  - destruct q as [|nd q'] eqn:Hq; [now rewrite generations_nil|].
    rewrite <- Hq in *. assert (0 < length q) by (subst q; cbn; lia).
    pose proof (sizes_kids q) as Hk.
    rewrite generations_S, preorders_by_level.
    apply Permutation_app_head, IH. lia.
Qed.

(** Both traversals start with the root and yield every node of the tree
    once: what one yields is a permutation of what the other yields, and
    there are as many values as the tree has nodes. *)
Theorem traversals_same_nodes {A : Type} (root : node A) :
  exists depth breadth,
    Gen.all (size root) depthTraversalTree_next (depthTraversalTree root) = Some depth /\
    Gen.all (size root) breadthTraversalTree_next (breadthTraversalTree root)
      = Some breadth /\
    depth ≡ₚ breadth /\
    length depth = size root /\ length breadth = size root /\
    head depth = Some root /\ head breadth = Some root.
Proof.
  assert (sizes [root] <= size root) as Hs by (rewrite sizes_cons, sizes_nil; lia).
  assert (flat_map preorder (rev [root]) = preorder root) as Hp
    by (cbn [rev app flat_map]; apply app_nil_r).
  assert (generations (size root) [root] ≡ₚ preorder root) as Hperm.
  { rewrite generations_preorder by exact Hs. cbn [flat_map]. now rewrite app_nil_r. }
  exists (preorder root), (generations (size root) [root]).
  unfold depthTraversalTree, breadthTraversalTree.
  rewrite depthTraversalTree_all, (breadthTraversalTree_all (size root)), Hp
    by (exact Hs || lia).
  repeat split.
  - now symmetry.
  - apply length_preorder.
  - rewrite Hperm. apply length_preorder.
  - now rewrite preorder_kids.
  - pose proof (size_pos root). destruct (size root); [lia|].
    now rewrite generations_S.
Qed.

(** ** [mergeSortedSequences] *)

Lemma pending_first {A St : Type} (nx : St -> option (A * St)) (m : nat) (s : St) :
  pending nx m (nx s) = Gen.first (S m) nx s.
Proof. cbn [Gen.first]. unfold pending. now destruct (nx s) as [[v it]|]. Qed.

Lemma pending_sorted_inv {A St : Type} (leb : A -> A -> bool)
    (nx : St -> option (A * St)) (v : A) (it : St) :
  (forall m, Sorted (le_of leb) (pending nx m (Some (v, it)))) ->
  (forall m, Sorted (le_of leb) (pending nx m (nx it))) /\ below leb v (nx it).
Proof.
  intros Hs. split.
  - intros m. specialize (Hs (S m)). cbn [pending] in Hs.
    rewrite <- pending_first in Hs. now apply Sorted_inv in Hs.
  - specialize (Hs 1). cbn [pending Gen.first] in Hs. unfold below.
    destruct (nx it) as [[v' it']|]; [|exact I].
    apply Sorted_inv in Hs as [_ Hd]. now apply HdRel_inv in Hd.
Qed.

Lemma merge_left_done {A St1 St2 : Type} (leb : A -> A -> bool)
    (next1 : St1 -> option (A * St1)) (next2 : St2 -> option (A * St2))
    (n : nat) (s2 : St2) :
  Gen.first n (mergeSortedSequences_next leb next1 next2) (None, next2 s2)
  = Gen.first n next2 s2.
Proof.
  revert s2. induction n as [|n IH]; intros s2; [reflexivity|].
  cbn [Gen.first]. unfold mergeSortedSequences_next at 1.
  destruct (next2 s2) as [[v it]|]; [|reflexivity]. f_equal. apply IH.
Qed.

Lemma merge_right_done {A St1 St2 : Type} (leb : A -> A -> bool)
    (next1 : St1 -> option (A * St1)) (next2 : St2 -> option (A * St2))
    (n : nat) (s1 : St1) :
  Gen.first n (mergeSortedSequences_next leb next1 next2) (next1 s1, None)
  = Gen.first n next1 s1.
Proof.
  revert s1. induction n as [|n IH]; intros s1; [reflexivity|].
  cbn [Gen.first]. unfold mergeSortedSequences_next at 1.
  destruct (next1 s1) as [[v it]|]; [|reflexivity]. f_equal. apply IH.
Qed.

(** From any turn of the loop on: if what each source still has to give is
    sorted, so is what the merge yields, and it starts no lower than the
    two values in hand. *)
Lemma merge_sorted_from {A St1 St2 : Type} (leb : A -> A -> bool)
    (next1 : St1 -> option (A * St1)) (next2 : St2 -> option (A * St2))
    (n : nat) (val1 : option (A * St1)) (val2 : option (A * St2)) :
  (forall x y, le_of leb x y \/ le_of leb y x) ->
  (forall m, Sorted (le_of leb) (pending next1 m val1)) ->
  (forall m, Sorted (le_of leb) (pending next2 m val2)) ->
  Sorted (le_of leb)
    (Gen.first n (mergeSortedSequences_next leb next1 next2) (val1, val2)) /\
  (forall z, below leb z val1 -> below leb z val2 ->
             HdRel (le_of leb) z
               (Gen.first n (mergeSortedSequences_next leb next1 next2) (val1, val2))).
Proof.
  intros Htot. revert val1 val2.
  induction n as [|n IH]; intros val1 val2 H1 H2; [split; constructor|].
  cbn [Gen.first]. unfold mergeSortedSequences_next at 1 3.
  destruct val1 as [[v1 it1]|], val2 as [[v2 it2]|].
  - destruct (leb v1 v2) eqn:Hle.
    + destruct (pending_sorted_inv _ _ _ _ H1) as [H1' Hb].
      destruct (IH (next1 it1) (Some (v2, it2)) H1' H2) as [Hs Hh].
      split; [|intros z Hz _; now constructor].
      constructor; [exact Hs | now apply Hh].
    + destruct (pending_sorted_inv _ _ _ _ H2) as [H2' Hb].
      destruct (IH (Some (v1, it1)) (next2 it2) H1 H2') as [Hs Hh].
      split; [|intros z _ Hz; now constructor].
      constructor; [exact Hs|]. apply Hh; [|exact Hb].
      destruct (Htot v1 v2) as [Hc|Hc]; [unfold le_of in Hc; congruence | exact Hc].
  - destruct (pending_sorted_inv _ _ _ _ H1) as [H1' Hb].
    destruct (IH (next1 it1) None H1' H2) as [Hs Hh].
    split; [|intros z Hz _; now constructor].
    constructor; [exact Hs | now apply Hh].
  - destruct (pending_sorted_inv _ _ _ _ H2) as [H2' Hb].
    destruct (IH None (next2 it2) H1 H2') as [Hs Hh].
    split; [|intros z _ Hz; now constructor].
    constructor; [exact Hs | now apply Hh].
  - split; constructor.
Qed.

(** When the two sources yield their values in nondecreasing order, so does
    the merged sequence, however many values are taken; the sources need
    not end. *)
Theorem mergeSortedSequences_sorted {A St1 St2 : Type}
    (leb : A -> A -> bool)
    (next1 : St1 -> option (A * St1)) (next2 : St2 -> option (A * St2))
    (source1 : St1) (source2 : St2) (n : nat) :
  (forall x y, le_of leb x y \/ le_of leb y x) ->
  (forall m, Sorted (le_of leb) (Gen.first m next1 source1)) ->
  (forall m, Sorted (le_of leb) (Gen.first m next2 source2)) ->
  Sorted (le_of leb)
    (Gen.first n (mergeSortedSequences_next leb next1 next2)
       (mergeSortedSequences next1 next2 source1 source2)).
Proof.
  intros Htot H1 H2.
  apply (merge_sorted_from leb next1 next2 n); [exact Htot|..].
  - intros m. rewrite pending_first. apply H1.
  - intros m. rewrite pending_first. apply H2.
Qed.

(** When one source has nothing to give, the merged sequence is the other
    source as it is, sorted or not. *)
Theorem mergeSortedSequences_one_source_empty {A St1 St2 : Type}
    (leb : A -> A -> bool)
    (next1 : St1 -> option (A * St1)) (next2 : St2 -> option (A * St2))
    (source1 : St1) (source2 : St2) (n : nat) :
  (next1 source1 = None ->
   Gen.first n (mergeSortedSequences_next leb next1 next2)
     (mergeSortedSequences next1 next2 source1 source2)
   = Gen.first n next2 source2) /\
  (next2 source2 = None ->
   Gen.first n (mergeSortedSequences_next leb next1 next2)
     (mergeSortedSequences next1 next2 source1 source2)
   = Gen.first n next1 source1).
Proof.
  unfold mergeSortedSequences. split; intros ->.
  - apply merge_left_done.
  - apply merge_right_done.
Qed.

Lemma mergeSortedSequences_one_source_empty_witness :
  (array_next ([] : list Z) = None ->
   Gen.first 5 (mergeSortedSequences_next Z.leb array_next (count_by 3))
     (mergeSortedSequences array_next (count_by 3) [] 1%Z)
   = Gen.first 5 (count_by 3) 1%Z) /\
  (count_by 3 1%Z = None ->
   Gen.first 5 (mergeSortedSequences_next Z.leb array_next (count_by 3))
     (mergeSortedSequences array_next (count_by 3) [] 1%Z)
   = Gen.first 5 array_next []).
Proof. apply (mergeSortedSequences_one_source_empty Z.leb array_next (count_by 3) [] 1%Z 5). Defined.

Lemma count_by_sorted (step from : Z) (m : nat) :
  (0 <= step)%Z -> Sorted (le_of Z.leb) (Gen.first m (count_by step) from).
Proof.
  intros Hs. revert from. induction m as [|m IH]; intros from; [constructor|].
  cbn [Gen.first count_by]. constructor; [apply IH|].
  destruct m as [|m]; constructor. apply Z.leb_le. lia.
Qed.

Lemma Z_leb_total (x y : Z) : le_of Z.leb x y \/ le_of Z.leb y x.
Proof. unfold le_of. rewrite !Z.leb_le. lia. Qed.

(** The odd and the even numbers, neither of which ends. *)
Lemma mergeSortedSequences_sorted_witness :
  Sorted (le_of Z.leb)
    (Gen.first 10 (mergeSortedSequences_next Z.leb (count_by 2) (count_by 2))
       (mergeSortedSequences (count_by 2) (count_by 2) 1%Z 2%Z)).
Proof.
  apply (mergeSortedSequences_sorted Z.leb (count_by 2) (count_by 2) 1%Z 2%Z 10).
  - exact Z_leb_total.
  - intros m. apply count_by_sorted. lia.
  - intros m. apply count_by_sorted. lia.
Defined.

Example mergeSortedSequences_example :
  Gen.first 10 (mergeSortedSequences_next Z.leb (count_by 2) (count_by 2))
    (mergeSortedSequences (count_by 2) (count_by 2) 1%Z 2%Z)
  = [1; 2; 3; 4; 5; 6; 7; 8; 9; 10]%Z.
Proof. reflexivity. Qed.

(** *** Arrays as sources *)

Lemma first_array {A : Type} (m : nat) (arr : list A) :
  Gen.first m array_next arr = take m arr.
Proof.
  revert arr. induction m as [|m IH]; intros arr; [reflexivity|].
  destruct arr as [|x arr]; [reflexivity|]. cbn [Gen.first array_next take].
  now rewrite IH.
Qed.

Lemma Sorted_take {A : Type} (R : A -> A -> Prop) (m : nat) (l : list A) :
  Sorted R l -> Sorted R (take m l).
Proof.
  intros Hs. revert m. induction Hs as [|x l Hs IH Hd]; intros m.
  - rewrite take_nil. constructor.
  - destruct m as [|m]; [constructor|]. cbn [take]. constructor; [apply IH|].
    destruct Hd as [|y l Hxy]; [rewrite take_nil; constructor|].
    destruct m; constructor. exact Hxy.
Qed.

(** From any turn of the loop on, with arrays as sources: the merge is done
    after as many values as the two arrays still have together, and these
    are the values of the two arrays. *)
Lemma merge_arrays_all {A : Type} (leb : A -> A -> bool) (fuel : nat) (arr1 arr2 : list A) :
  length arr1 + length arr2 <= fuel ->
  exists out,
    Gen.all fuel (mergeSortedSequences_next leb array_next array_next)
      (array_next arr1, array_next arr2) = Some out /\
    out ≡ₚ arr1 ++ arr2.
Proof.
  revert arr1 arr2. induction fuel as [|fuel IH]; intros arr1 arr2 Hf.
  - destruct arr1, arr2; cbn in Hf; try lia. exists []. split; reflexivity.
  - destruct arr1 as [|x arr1], arr2 as [|y arr2].
    + exists []. split; reflexivity.
    + destruct (IH [] arr2) as (out & Ho & Hp); [cbn in *; lia|].
      exists (y :: out). cbn [Gen.all array_next mergeSortedSequences_next].
      cbn [array_next] in Ho. rewrite Ho. split; [reflexivity|].
      cbn [app] in *. now rewrite Hp.
    + destruct (IH arr1 []) as (out & Ho & Hp); [cbn in *; lia|].
      exists (x :: out). cbn [Gen.all array_next mergeSortedSequences_next].
      cbn [array_next] in Ho. rewrite Ho. split; [reflexivity|].
      cbn [app]. now rewrite Hp.
    + cbn [Gen.all array_next mergeSortedSequences_next].
      destruct (leb x y).
      * destruct (IH arr1 (y :: arr2)) as (out & Ho & Hp); [cbn in *; lia|].
        exists (x :: out). cbn [array_next] in Ho. rewrite Ho.
        split; [reflexivity|]. cbn [app]. now rewrite Hp.
      * destruct (IH (x :: arr1) arr2) as (out & Ho & Hp); [cbn in *; lia|].
        exists (y :: out). cbn [array_next] in Ho. rewrite Ho.
        split; [reflexivity|]. rewrite Hp. apply Permutation_middle.
Qed.

(** Merging two arrays ends after as many values as the arrays have
    together and yields the values of both, each as often as it is there,
    whether the arrays are sorted or not. *)
Theorem mergeSortedSequences_arrays_permutation {A : Type}
    (leb : A -> A -> bool) (arr1 arr2 : list A) (fuel : nat) :
  length arr1 + length arr2 <= fuel ->
  exists out,
    Gen.all fuel (mergeSortedSequences_next leb array_next array_next)
      (mergeSortedSequences array_next array_next arr1 arr2) = Some out /\
    out ≡ₚ arr1 ++ arr2 /\
    length out = length arr1 + length arr2.
Proof.
  intros Hf. destruct (merge_arrays_all leb fuel arr1 arr2 Hf) as (out & Ho & Hp).
  exists out. repeat split; [exact Ho | exact Hp |].
  now rewrite Hp, length_app.
Qed.

Lemma mergeSortedSequences_arrays_permutation_witness :
  exists out,
    Gen.all 7 (mergeSortedSequences_next Z.leb array_next array_next)
      (mergeSortedSequences array_next array_next [5; 1; 4]%Z [2; 9; 3; 0]%Z)
      = Some out /\
    out ≡ₚ [5; 1; 4]%Z ++ [2; 9; 3; 0]%Z /\
    length out = length [5; 1; 4]%Z + length [2; 9; 3; 0]%Z.
Proof.
  apply (mergeSortedSequences_arrays_permutation Z.leb [5; 1; 4]%Z [2; 9; 3; 0]%Z 7).
  vm_compute. lia.
Defined.

(** Merging two sorted arrays yields one sorted array with the values of
    both. *)
Theorem mergeSortedSequences_arrays_sorted {A : Type}
    (leb : A -> A -> bool) (arr1 arr2 : list A) :
  (forall x y, le_of leb x y \/ le_of leb y x) ->
  Sorted (le_of leb) arr1 ->
  Sorted (le_of leb) arr2 ->
  exists out,
    Gen.all (length arr1 + length arr2)
      (mergeSortedSequences_next leb array_next array_next)
      (mergeSortedSequences array_next array_next arr1 arr2) = Some out /\
    Sorted (le_of leb) out /\
    out ≡ₚ arr1 ++ arr2.
Proof.
  intros Htot H1 H2.
  destruct (merge_arrays_all leb (length arr1 + length arr2) arr1 arr2) as (out & Ho & Hp);
    [lia|].
  exists out. repeat split; [exact Ho | | exact Hp].
  pose proof (all_first _ _ _ _ Ho (length out)) as Hfirst.
  rewrite firstn_all in Hfirst. rewrite <- Hfirst.
  apply (merge_sorted_from leb array_next array_next); [exact Htot|..];
    intros m; rewrite pending_first, first_array; now apply Sorted_take.
Qed.

Lemma mergeSortedSequences_arrays_sorted_witness :
  exists out,
    Gen.all (length [1; 4; 4; 8]%Z + length [0; 4; 9]%Z)
      (mergeSortedSequences_next Z.leb array_next array_next)
      (mergeSortedSequences array_next array_next [1; 4; 4; 8]%Z [0; 4; 9]%Z)
      = Some out /\
    Sorted (le_of Z.leb) out /\
    out ≡ₚ [1; 4; 4; 8]%Z ++ [0; 4; 9]%Z.
Proof.
  apply (mergeSortedSequences_arrays_sorted Z.leb [1; 4; 4; 8]%Z [0; 4; 9]%Z).
  - exact Z_leb_total.
  - repeat constructor.
  - repeat constructor.
Defined.

(** ** [getFibonacciSequence], at every index *)





(** ** Each part goes to the end of the output *)

(** On a selector built by part-append calls from a new one, a call that
    returns adds the part, as it renders, at the end of what
    [stringify()] gave before. *)
Theorem append_extends_output
    (calls : list (PartKind * string)) (this this' : Selector.t)
    (k : PartKind) (v : string) :
  chain calls Selector.constructor = (Return tt, this) ->
  method k v this = (Return tt, this') ->
  Selector.stringify this' = Selector.stringify this +:+ rendered (k, v).
Proof.
  intros Hc Hm.
  assert (chain (calls ++ [(k, v)]) Selector.constructor = (Return tt, this')) as Hc'
    by (now rewrite chain_app, Hc, chain_one).
  apply chain_returns in Hc as [_ ->]. apply chain_returns in Hc' as [Hv ->].
  rewrite !stringify_parts_of. apply render_spec_snoc.
  now rewrite map_app in Hv.
Qed.

Lemma append_extends_output_witness :
  Selector.stringify
    (snd (chain [(Element, "a"); (Attr, "href"); (PseudoClass, "focus")]
            Selector.constructor)) =
  Selector.stringify (snd (chain [(Element, "a"); (Attr, "href")] Selector.constructor))
    +:+ rendered (PseudoClass, "focus").
Proof.
  apply (append_extends_output [(Element, "a"); (Attr, "href")] _ _ PseudoClass "focus");
    reflexivity.
Defined.
